(** * PartyScreen: the party synchronisation screen of lets-fork-native

    A shallow embedding of [src/screens/PartyScreen.tsx]: the React function
    component is a render pass over explicit hook state, its callbacks are
    events, and everything the component does to the outside world (socket
    sends, alerts, navigation, [setParty]) is a list of actions. *)

From Stdlib Require Import ZArith Ascii String.
From stdpp Require Import base option list strings pretty.

Local Open Scope string_scope.
Local Open Scope list_scope.

(** ** JavaScript objects with identity

    React compares hook dependencies and state with [Object.is], which on
    arrays and objects is reference identity.  An object is therefore a value
    together with the address it lives at, and [Object.is] is equality of
    addresses.  Addresses handed in from outside the component (a pushed
    party parsed by the parent, an array built by the child) are [Outside];
    the component's own allocations are [Inside]. *)

Inductive addr : Type :=
  | Outside (n : nat)
  | Inside (n : nat).

Global Instance addr_eq_dec : EqDecision addr.
Proof. solve_decision. Defined.

Record obj (A : Type) : Type := Obj { addr_of : addr; val : A }.
Arguments Obj {A} _ _.
Arguments addr_of {A} _.
Arguments val {A} _.

Global Instance obj_eq_dec `{EqDecision A} : EqDecision (obj A).
Proof. solve_decision. Defined.

(** ** types.ts: Restaurant and Party *)

Module Restaurant.
(** Modelled from the spec: the [Restaurant] type of [types] is not part of
    the sources; section 3 gives it an [id], an [image_url] and descriptive
    fields that only the presentation reads. *)
Record t : Type := mk { id : string; image_url : string }.

Global Instance eq_dec : EqDecision t.
Proof. solve_decision. Defined.
End Restaurant.

Module Party.
(** Modelled from the spec: the [Party] type of [types] is not part of the
    sources; section 3 lists its fields.  Every field is optional, since the
    component itself builds [{} as Party]. *)
Record t : Type := mk {
  id : option string;
  status : option string;
  restaurants : option (obj (list Restaurant.t));
  current : option (obj (list Restaurant.t));
  total : option Z;
  error : option string
}.

Global Instance eq_dec : EqDecision t.
Proof. solve_decision. Defined.

(** [{} as Party] *)
Definition empty : t := mk None None None None None None.
End Party.

(** ** JSON.stringify, as far as the component uses it *)

Module JSON.
(** The double quote, code 34. *)
Definition dquote : ascii := "034"%char.

Definition hex_digit (n : N) : ascii :=
  match n with
  | 0 => "0" | 1 => "1" | 2 => "2" | 3 => "3" | 4 => "4" | 5 => "5"
  | 6 => "6" | 7 => "7" | 8 => "8" | 9 => "9" | 10 => "a" | 11 => "b"
  | 12 => "c" | 13 => "d" | 14 => "e" | _ => "f"
  end%N%char.

(** QuoteJSONString on one code unit: the short escapes, [\u00xx] for the
    other control characters, the character itself otherwise. *)
Definition escape (c : ascii) : string :=
  let n := N_of_ascii c in
  if (n =? 8)%N then "\b"
  else if (n =? 9)%N then "\t"
  else if (n =? 10)%N then "\n"
  else if (n =? 12)%N then "\f"
  else if (n =? 13)%N then "\r"
  else if (n =? 34)%N then String "\" (String dquote EmptyString)
  else if (n =? 92)%N then "\\"
  else if (n <? 32)%N then
    "\u00" +:+ String (hex_digit (n / 16)) (String (hex_digit (n mod 16)) EmptyString)
  else String c EmptyString.

Fixpoint escape_all (s : string) : string :=
  match s with
  | EmptyString => EmptyString
  | String c s' => escape c +:+ escape_all s'
  end.

Definition quote (s : string) : string :=
  String dquote (escape_all s +:+ String dquote EmptyString).

(** One restaurant object: its properties in the order of the record. *)
Definition stringify_restaurant (r : Restaurant.t) : string :=
  "{" +:+ quote "id" +:+ ":" +:+ quote (Restaurant.id r) +:+ ","
      +:+ quote "image_url" +:+ ":" +:+ quote (Restaurant.image_url r) +:+ "}".

Fixpoint stringify_elements (l : list Restaurant.t) : string :=
  match l with
  | [] => EmptyString
  | [r] => stringify_restaurant r
  | r :: l' => stringify_restaurant r +:+ "," +:+ stringify_elements l'
  end.

Definition stringify_array (l : list Restaurant.t) : string :=
  "[" +:+ stringify_elements l +:+ "]".

(** [JSON.stringify(x)] for [x : Restaurant[] | undefined]:
    [undefined] stays [undefined], an array becomes its JSON text.  The
    address of the array plays no part. *)
Definition stringify (x : option (obj (list Restaurant.t))) : option string :=
  stringify_array ∘ val <$> x.

(** *** Reading a quoted string back

    Not used by the component: the inverse of [quote], by which the proofs
    below show that two texts are equal only for equal values. *)

Definition unhex (c : ascii) : option N :=
  let n := N_of_ascii c in
  if (48 <=? n)%N && (n <=? 57)%N then Some (n - 48)%N
  else if (97 <=? n)%N && (n <=? 102)%N then Some (n - 87)%N
  else None.

(** The character that a two-character escape stands for. *)
Definition unescape_short (e : ascii) : ascii :=
  if Ascii.eqb e "b" then "008"
  else if Ascii.eqb e "t" then "009"
  else if Ascii.eqb e "n" then "010"
  else if Ascii.eqb e "f" then "012"
  else if Ascii.eqb e "r" then "013"
  else e.

(** Reads the rest of a quoted string, after its opening quote: the string
    it stands for and what follows the closing quote. *)
Fixpoint unquote (s : string) : option (string * string) :=
  match s with
  | EmptyString => None
  | String c s1 =>
      if Ascii.eqb c dquote then Some (EmptyString, s1)
      else if Ascii.eqb c "\" then
        match s1 with
        | EmptyString => None
        | String e s2 =>
            if Ascii.eqb e "u" then
              match s2 with
              | String _ (String _ (String h (String l s3))) =>
                  match unhex h, unhex l, unquote s3 with
                  | Some a, Some b, Some (t, rest) =>
                      Some (String (ascii_of_N (16 * a + b)) t, rest)
                  | _, _, _ => None
                  end
              | _ => None
              end
            else
              match unquote s2 with
              | Some (t, rest) => Some (String (unescape_short e) t, rest)
              | None => None
              end
        end
      else
        match unquote s1 with
        | Some (t, rest) => Some (String c t, rest)
        | None => None
        end
  end.
End JSON.


(** ** The outside world: socket messages and other actions *)

(** The three outbound messages, [{ type: ... }] before serialisation. *)
Inductive Message : Type :=
  | RequestMore
  | Quit
  | SwipeRight (restaurant_id : string).

Global Instance Message_eq_dec : EqDecision Message.
Proof. solve_decision. Defined.

(** [JSON.stringify] of a message object, the text given to [ws.send]. *)
Definition wire (m : Message) : string :=
  match m with
  | RequestMore => "{" +:+ JSON.quote "type" +:+ ":" +:+ JSON.quote "request-more" +:+ "}"
  | Quit => "{" +:+ JSON.quote "type" +:+ ":" +:+ JSON.quote "quit" +:+ "}"
  | SwipeRight i =>
      "{" +:+ JSON.quote "type" +:+ ":" +:+ JSON.quote "swipe-right" +:+ ","
          +:+ JSON.quote "payload" +:+ ":{" +:+ JSON.quote "restaurant_id" +:+ ":"
          +:+ JSON.quote i +:+ "}}"
  end.

Inductive Screen : Type := Home | Join.

Global Instance Screen_eq_dec : EqDecision Screen.
Proof. solve_decision. Defined.

Inductive Action : Type :=
  | Send (ws : nat) (m : Message)      (* ws.send(JSON.stringify(m)) *)
  | AlertError (message : string)      (* the alert of lines 60-75 *)
  | AlertExit                          (* the confirmation of lines 101-116 *)
  | Navigate (to : Screen)             (* navigation.navigate *)
  | SetParty (p : Party.t).            (* setParty, owned by the parent *)

Global Instance Action_eq_dec : EqDecision Action.
Proof. solve_decision. Defined.

Definition is_request_more (a : Action) : bool :=
  match a with Send _ RequestMore => true | _ => false end.

Definition is_send (a : Action) : bool :=
  match a with Send _ _ => true | _ => false end.

(** How many [request-more] messages a list of actions sends. *)
Definition request_more_count (l : list Action) : nat :=
  length (filter (λ a, is_request_more a = true) l).

(** ** The component *)

Module PartyScreen.

(** The props.  [navigation] and [setParty] only occur as callees; their calls
    are actions.  [ws] is the socket handle, compared by identity. *)
Record Props : Type := mkProps {
  party : option (obj Party.t);
  ws : nat
}.

Global Instance Props_eq_dec : EqDecision Props.
Proof. solve_decision. Defined.

(** Hook state.  The first three fields are the [useState] cells.  [previous]
    is the ref of [usePrevious]; the two dependency arrays are those of the
    last render, which React keeps to decide whether an effect runs again;
    [fresh] is the next unused [Inside] address. *)
Record State : Type := mkState {
  finished : bool;
  restaurants : option (obj (list Restaurant.t));
  details : option Restaurant.t;
  previous : obj Party.t;
  request_deps : option addr * nat;
  reconcile_deps : option addr * addr * option addr;
  fresh : nat
}.

Global Instance State_eq_dec : EqDecision State.
Proof. solve_decision. Defined.

(** What the component returns. *)
Inductive View : Type :=
  | Waiting (code : option string)
  | Exhausted
  | Loading
  | Active (cards : obj (list Restaurant.t)) (showing : option Restaurant.t).

Global Instance View_eq_dec : EqDecision View.
Proof. solve_decision. Defined.

(** *** Optional chaining on the party prop *)

Definition party_error (p : Props) : option string := o ← party p; Party.error (val o).
Definition party_status (p : Props) : option string := o ← party p; Party.status (val o).
Definition party_total (p : Props) : option Z := o ← party p; Party.total (val o).
Definition party_id (p : Props) : option string := o ← party p; Party.id (val o).
Definition party_current (p : Props) : option (obj (list Restaurant.t)) :=
  o ← party p; Party.current (val o).
Definition party_restaurants (p : Props) : option (obj (list Restaurant.t)) :=
  o ← party p; Party.restaurants (val o).

(** Truthiness of [string | undefined]: a non-empty string. *)
Definition truthy (s : option string) : bool :=
  match s with
  | Some (String _ _) => true
  | _ => false
  end.

(** *** Lines 60-75: the error alert, raised while rendering *)
Definition error_alert (p : Props) : list Action :=
  if truthy (party_error p) then [AlertError (default EmptyString (party_error p))] else [].

(** The OK button of the error alert. *)
Definition error_onPress : list Action := [Navigate Join; SetParty Party.empty].

(** *** Lines 79-83: the low-queue effect *)
Definition request_more_effect (p : Props) (s : State) : list Action :=
  match restaurants s with
  | Some r => if bool_decide (length (val r) = 3) then [Send (ws p) RequestMore] else []
  | None => []
  end.

(** *** Line 87: [usePrevious(party || {} as Party)] *)

(** [party || {} as Party]: the prop itself, or a newly allocated empty
    object.  Returns the value and the next unused address. *)
Definition party_or_empty (p : Props) (n : nat) : obj Party.t * nat :=
  match party p with
  | Some o => (o, n)
  | None => (Obj (Inside n) Party.empty, S n)
  end.

(** Modelled from the spec: [usePrevious] of [utils/hooks] is not part of the
    sources.  Section 3 calls its result the Party value observed at the
    previous reconciliation tick: a ref that every render reads before an
    effect of that same render overwrites it with the value just passed.  On
    the first render there is no earlier tick and the ref holds the value it
    is created with. *)
Definition usePrevious (ref : obj Party.t) (value : obj Party.t) : obj Party.t * obj Party.t :=
  (ref, value).

(** *** Lines 88-95: the reconciliation effect *)

(** The test of line 89. *)
Definition current_changed (prevState : Party.t) (p : Props) : bool :=
  bool_decide (JSON.stringify (Party.current prevState) ≠ JSON.stringify (party_current p)).

(** The body of the effect: [Some res] when [setRestaurants(res)] is called
    with the spread array, allocated at address [Inside n]. *)
Definition reconcile_effect (prevState : Party.t) (p : Props) (s : State) (n : nat)
  : option (obj (list Restaurant.t)) :=
  if current_changed prevState p then
    match party_current p, restaurants s with
    | Some c, Some r =>
        if bool_decide (length (val c) ≠ 0)
        then Some (Obj (Inside n) (val r ++ val c))
        else None
    | _, _ => None
    end
  else None.

(** *** Lines 130-238: the returned view *)
Definition view (p : Props) (s : State) : View :=
  if bool_decide (party_status p = Some "waiting") then Waiting (party_id p)
  else if finished s || bool_decide (party_total p = Some 0%Z) then Exhausted
  else match party_restaurants p with
       | None => Loading
       | Some rs => Active (default rs (restaurants s)) (details s)
       end.

(** The Start Over button of the Exhausted view, lines 166-169. *)
Definition start_over_onPress (p : Props) (s : State) : State :=
  mkState false (party_restaurants p) (details s) (previous s)
          (request_deps s) (reconcile_deps s) (fresh s).

(** The OK button of the exit confirmation, lines 108-112. *)
Definition exit_onPress (p : Props) : list Action :=
  [Send (ws p) Quit; Navigate Home; SetParty Party.empty].

(** Line 126. *)
Definition handleSwipeRight (p : Props) (id : string) : list Action :=
  [Send (ws p) (SwipeRight id)].

(** *** One render pass

    The function body runs (alert, view), then the effects in the order the
    hooks are called: the low-queue effect, the effect inside [usePrevious],
    the reconciliation effect.  An effect runs when one of its dependencies
    is not [Object.is]-equal to its value at the last render.  [rerender]
    tells whether an effect set state. *)
Record Pass : Type := mkPass {
  next : State;
  actions : list Action;
  shown : View;
  rerender : bool
}.

Definition render (p : Props) (s : State) : Pass :=
  let '(value, n) := party_or_empty p (fresh s) in
  let '(prevState, ref') := usePrevious (previous s) value in
  let rdeps := (addr_of <$> restaurants s, ws p) in
  let cdeps := (addr_of <$> party p, addr_of prevState, addr_of <$> restaurants s) in
  let sent :=
    if bool_decide (rdeps = request_deps s) then [] else request_more_effect p s in
  let res :=
    if bool_decide (cdeps = reconcile_deps s) then None
    else reconcile_effect (val prevState) p s n in
  {| next := mkState (finished s)
                     (match res with Some r => Some r | None => restaurants s end)
                     (details s) ref' rdeps cdeps
                     (match res with Some _ => S n | None => n end);
     actions := error_alert p ++ sent;
     shown := view p s;
     rerender := bool_decide (is_Some res) |}.

(** The first render: fresh [useState] cells, the ref created with the value
    passed, every effect run. *)
Definition mount (p : Props) : Pass :=
  let '(value, n) := party_or_empty p 0 in
  let '(prevState, ref') := usePrevious value value in
  let rdeps := (None, ws p) in
  let cdeps := (addr_of <$> party p, addr_of prevState, None) in
  let s0 := mkState false None None value rdeps cdeps n in
  let res := reconcile_effect (val prevState) p s0 n in
  {| next := mkState false
                     (match res with Some r => Some r | None => None end)
                     None ref' rdeps cdeps
                     (match res with Some _ => S n | None => n end);
     actions := error_alert p ++ request_more_effect p s0;
     shown := view p s0;
     rerender := bool_decide (is_Some res) |}.

(** *** The mounted screen and its events *)

Record Mounted : Type := mkMounted {
  props : Props;
  state : State
}.

Global Instance Mounted_eq_dec : EqDecision Mounted.
Proof. solve_decision. Defined.

Inductive Event : Type :=
  | NewProps (p : Props)                 (* the parent passes props; [React.memo] *)
  | SetFinished (b : bool)               (* [setFinished], given to SwipeWindow *)
  | SetRestaurants (r : option (obj (list Restaurant.t)))
                                         (* [setRestaurants], given to SwipeWindow *)
  | SetDetails (d : option Restaurant.t) (* [setDetails] *)
  | SwipedRight (id : string)            (* [handleSwipeRight], given to SwipeWindow *)
  | PressStartOver
  | PressErrorOK
  | HardwareBack
  | PressExitOK
  | PressExitCancel.

(** What the callback of an event does by itself, before any render. *)
Definition handle (e : Event) (m : Mounted) : Mounted * list Action :=
  let p := props m in
  let s := state m in
  match e with
  | NewProps p' => (mkMounted p' s, [])
  | SetFinished b =>
      (mkMounted p (mkState b (restaurants s) (details s) (previous s)
                            (request_deps s) (reconcile_deps s) (fresh s)), [])
  | SetRestaurants r =>
      (mkMounted p (mkState (finished s) r (details s) (previous s)
                            (request_deps s) (reconcile_deps s) (fresh s)), [])
  | SetDetails d =>
      (mkMounted p (mkState (finished s) (restaurants s) d (previous s)
                            (request_deps s) (reconcile_deps s) (fresh s)), [])
  | SwipedRight i => (m, handleSwipeRight p i)
  | PressStartOver =>
      match view p s with
      | Exhausted => (mkMounted p (start_over_onPress p s), [])
      | _ => (m, [])
      end
  | PressErrorOK => (m, error_onPress)
  | HardwareBack => (m, [AlertExit])
  | PressExitOK => (m, exit_onPress p)
  | PressExitCancel => (m, [])
  end.

(** React renders again after an effect set state, until none does.  Two
    passes are written out; [second_pass_quiet] below shows that the second
    one never asks for a third. *)
Definition commit (m : Mounted) : Mounted * list Action :=
  let r1 := render (props m) (state m) in
  if rerender r1 then
    let r2 := render (props m) (next r1) in
    (mkMounted (props m) (next r2), actions r1 ++ actions r2)
  else (mkMounted (props m) (next r1), actions r1).

(** One event: the callback, then, when props or state are no longer what
    they were, the renders.  A callback that changes nothing schedules no
    render.  (After a state setter is called with the value the state already
    has, React may still run the function body once more before it gives up,
    without running any effect: of all actions only the alert of lines 60-75
    can be raised by that; the model leaves this run out.) *)
Definition step (e : Event) (m : Mounted) : Mounted * list Action :=
  let '(m1, out) := handle e m in
  if bool_decide (m1 = m) then (m1, out)
  else let '(m2, out') := commit m1 in (m2, out ++ out').

Fixpoint run (m : Mounted) (es : list Event) : Mounted * list Action :=
  match es with
  | [] => (m, [])
  | e :: es' =>
      let '(m1, out) := step e m in
      let '(m2, out') := run m1 es' in
      (m2, out ++ out')
  end.

(** Entering the screen with the given props. *)
Definition enter (p : Props) : Mounted * list Action :=
  let r1 := mount p in
  if rerender r1 then
    let r2 := render p (next r1) in
    (mkMounted p (next r2), actions r1 ++ actions r2)
  else (mkMounted p (next r1), actions r1).

(** The Local Queue of the spec: the content of the [restaurants] state. *)
Definition queue (m : Mounted) : option (list Restaurant.t) :=
  val <$> restaurants (state m).

Definition current_view (m : Mounted) : View := view (props m) (state m).

(** The Party value a render works on: the prop, or [{}]. *)
Definition party_value (p : Props) : Party.t := default Party.empty (val <$> party p).

(** Between events nothing is pending: the low-queue effect has seen the
    present [restaurants] and [ws], and the ref of [usePrevious] holds the
    present party. *)
Definition settled (m : Mounted) : Prop :=
  request_deps (state m) = (addr_of <$> restaurants (state m), ws (props m))
  ∧ val (previous (state m)) = party_value (props m).

(** The screens that entering and events can produce. *)
Inductive reachable : Mounted → Prop :=
  | reach_enter p : reachable (enter p).1
  | reach_step e m : reachable m → reachable (step e m).1.

(** An event other than a new snapshot. *)
Definition no_push (e : Event) : Prop := ∀ p, e ≠ NewProps p.

(** The events that push a Party snapshot: one [NewProps] per snapshot, the
    socket handle staying the one of the mounted screen. *)
Definition pushes (w : nat) (ps : list (obj Party.t)) : list Event :=
  (λ o, NewProps (mkProps (Some o) w)) <$> ps.

(** The [current] batches that a list of snapshots carries, in push order. *)
Definition pushed_batches (ps : list (obj Party.t)) : list (list Restaurant.t) :=
  omap (λ o, val <$> Party.current (val o)) ps.

End PartyScreen.

(** ** The wording of the spec, to compare with the code *)

Module Spec.

(** A Party without the addresses of its arrays: what deep equality sees. *)
Definition content (p : Party.t)
  : option string * option string * option (list Restaurant.t)
    * option (list Restaurant.t) * option Z * option string :=
  (Party.id p, Party.status p, val <$> Party.restaurants p,
   val <$> Party.current p, Party.total p, Party.error p).

(** Section 4.2, step 1, as worded: a new batch is detected when the whole
    previous Party value and the new one are not deeply equal. *)
Definition full_party_changed (prevState party : Party.t) : bool :=
  bool_decide (content prevState ≠ content party).

(** The ids of a queue, in order. *)
Definition ids (q : list Restaurant.t) : list string := Restaurant.id <$> q.

(** Section 4.3 as worded: Error, then the exit confirmation, then Exhausted
    before Waiting, then Loading, then Active.  The render function of the
    code decides among the last four. *)
Definition view_by_precedence (p : PartyScreen.Props) (s : PartyScreen.State)
  : PartyScreen.View :=
  if PartyScreen.finished s || bool_decide (PartyScreen.party_total p = Some 0%Z)
  then PartyScreen.Exhausted
  else if bool_decide (PartyScreen.party_status p = Some "waiting")
  then PartyScreen.Waiting (PartyScreen.party_id p)
  else match PartyScreen.party_restaurants p with
       | None => PartyScreen.Loading
       | Some rs =>
           PartyScreen.Active (default rs (PartyScreen.restaurants s))
                              (PartyScreen.details s)
       end.

End Spec.

(** ** Concrete parties used in the examples *)

Module Examples.
Import PartyScreen.

Definition r (i : string) : Restaurant.t := Restaurant.mk i ("https://img/" +:+ i).

Definition party_of (a : nat) (status : string)
    (rs : option (obj (list Restaurant.t))) (cur : option (obj (list Restaurant.t)))
    (total : Z) (err : option string) : Props :=
  mkProps (Some (Obj (Outside a) (Party.mk (Some "AB12") (Some status) rs cur (Some total) err))) 0.

Definition two : obj (list Restaurant.t) := Obj (Outside 2) [r "1"; r "2"].
Definition three : obj (list Restaurant.t) := Obj (Outside 3) [r "1"; r "2"; r "3"].
Definition four : obj (list Restaurant.t) := Obj (Outside 4) [r "1"; r "2"; r "3"; r "4"].

(** C1: a party of two restaurants that reports [total: 0]; Start Over seeds
    the queue; the next snapshot carries a batch that repeats restaurant 2. *)
Definition C1_entry : Props := party_of 10 "active" (Some two) None 0 None.
Definition C1_push : obj Party.t :=
  Obj (Outside 11)
      (Party.mk (Some "AB12") (Some "active") (Some two) (Some (Obj (Outside 12) [r "2"]))
                (Some 1%Z) None).
Definition C1_seeded : Mounted := (run (enter C1_entry).1 [PressStartOver]).1.
Definition C1_screen : Mounted := (run C1_seeded (pushes 0 [C1_push])).1.

(** C2: one card swiped out of four, then a snapshot with [total: 0]. *)
Definition C2_entry : Props := party_of 20 "active" (Some four) None 4 None.
Definition C2_push : Props := party_of 21 "active" (Some four) None 0 None.
Definition C2_swiped : obj (list Restaurant.t) := Obj (Outside 22) [r "2"; r "3"; r "4"].
Definition C2_before : Mounted := (run (enter C2_entry).1 [SetRestaurants (Some C2_swiped)]).1.
Definition C2_screen : Mounted := (step (NewProps C2_push) C2_before).1.

(** C3: a party still waiting for members that already reports [total: 0]. *)
Definition C3_props : Props := party_of 30 "waiting" None None 0 None.
Definition C3_screen : Mounted := (enter C3_props).1.

(** C4: four cards, one swiped, then the details panel opened and closed and
    a snapshot that only changes [total]. *)
Definition C4_entry : Props := party_of 40 "active" (Some four) None 4 None.
Definition C4_seed : Event := SetRestaurants (Some (Obj (Outside 41) (val four))).
Definition C4_four : Mounted := (step C4_seed (enter C4_entry).1).1.
Definition C4_swipe : Event := SetRestaurants (Some (Obj (Outside 42) [r "2"; r "3"; r "4"])).
Definition C4_three : Mounted := (step C4_swipe C4_four).1.

(** C5: two snapshots that differ in [total] only; their [current] arrays are
    two objects with the same content. *)
Definition C5_prev : Party.t :=
  Party.mk (Some "AB12") (Some "active") (Some four) (Some (Obj (Outside 50) [r "5"]))
           (Some 5%Z) None.
Definition C5_next : Props :=
  mkProps (Some (Obj (Outside 51)
    (Party.mk (Some "AB12") (Some "active") (Some four) (Some (Obj (Outside 52) [r "5"]))
              (Some 4%Z) None))) 0.

(** C6: a queue of three, a merged batch, and the same batch pushed again in
    a new snapshot. *)
Definition C6_batch (a : nat) : Props :=
  party_of a "active" (Some four) (Some (Obj (Outside (S a)) [r "5"; r "6"])) 6 None.
Definition C6_merged : Mounted :=
  (run (enter C4_entry).1 [C4_swipe; NewProps (C6_batch 60)]).1.

(** C7: a party of exactly three restaurants that reports [total: 0]. *)
Definition C7_entry : Props := party_of 70 "active" (Some three) None 0 None.
Definition C7_screen : Mounted := (enter C7_entry).1.

(** C8: an error pushed for a party that is otherwise being swiped. *)
Definition C8_error : Props :=
  party_of 80 "active" (Some four) None 4 (Some "party not found").

(** C9: a party of exactly three restaurants, the last card swiped away. *)
Definition C9_entry : Props := party_of 90 "active" (Some three) None 3 None.
Definition C9_screen : Mounted := (step (SetFinished true) (enter C9_entry).1).1.

(** C10: a batch pushed before any card was swiped. *)
Definition C10_screen : Mounted := (enter C4_entry).1.
Definition C10_push : Props := C6_batch 100.
Definition C10_seed : Event := SetRestaurants (Some (Obj (Outside 102) [r "2"; r "3"; r "4"])).

(** The scenario of section 8: a waiting party, ten restaurants, seven swipes
    (each handing the rest of the deck to [setRestaurants], with the swipe
    message), then a batch of three. *)
Definition deck (a : nat) (from : nat) : obj (list Restaurant.t) :=
  Obj (Outside a)
      (drop from [r "1"; r "2"; r "3"; r "4"; r "5"; r "6"; r "7"; r "8"; r "9"; r "10"]).
Definition scenario_waiting : Props := party_of 200 "waiting" None None 0 None.
Definition scenario_active : Props := party_of 201 "active" (Some (deck 202 0)) None 10 None.
Definition scenario_swipes : list Event :=
  flat_map (λ k, [SwipedRight (Restaurant.id (r (pretty k))); SetRestaurants (Some (deck (210 + k) k))])
           (seq 1 7).
Definition scenario_batch : Props :=
  party_of 220 "active" (Some (deck 202 0))
           (Some (Obj (Outside 221) [r "11"; r "12"; r "13"])) 13 None.
End Examples.

(** ** env.ts: the environment table and its selection *)

Module Env.

Record t : Type := mk { ADS : bool; API : string; ENV : string; WS : string }.

Global Instance eq_dec : EqDecision t.
Proof. solve_decision. Defined.

Definition development : t :=
  mk false "http://192.168.178.25:8003/api/v1" "development"
     "ws://192.168.178.25:8003/api/v1/ws".

Definition production : t :=
  mk false "https://letsfork.peterzernia.com/api/v1" "production"
     "wss://letsfork.peterzernia.com/api/v1/ws".

(** [s.indexOf(search)]: the first position at which [search] occurs in [s],
    or -1. *)
Fixpoint indexOf (s search : string) : Z :=
  if String.prefix search s then 0%Z
  else match s with
       | EmptyString => (-1)%Z
       | String _ s' =>
           let i := indexOf s' search in
           if (i =? -1)%Z then (-1)%Z else (i + 1)%Z
       end.

(** [getEnvVars], with [undefined] as [None]. *)
Definition getEnvVars (releaseChannel : option string) : t :=
  match releaseChannel with
  | None => development
  | Some c => if bool_decide (indexOf c "production" ≠ (-1)%Z) then production
              else development
  end.

(** [s] has [sub] somewhere inside. *)
Definition contains (s sub : string) : Prop := ∃ a b, s = a +:+ sub +:+ b.

End Env.

(** ** More of the component: sizes, the Active view, message accounting *)

Module Layout.
Import PartyScreen.

(** Line 58.  The numbers are JavaScript numbers; the definition is written
    over any type of numbers with a subtraction. *)
Definition viewHeight {number : Type} (sub : number → number → number) (fifty : number)
    (env : Env.t) (height headerHeight : number) : number :=
  if Env.ADS env then sub (sub height headerHeight) fifty else sub height headerHeight.

(** Lines 211-215: the [uri] of the placeholder image.  [None] is the
    TypeError of reading [image_url] of [undefined]. *)
Definition placeholder_uri (rs : obj (list Restaurant.t)) (s : State) : option string :=
  match restaurants s with
  | Some (Obj _ (r0 :: _)) => Some (Restaurant.image_url r0)
  | _ => Restaurant.image_url <$> head (val rs)
  end.

(** Lines 200-218: the placeholder exists on iOS only.  The outer [None] is
    the TypeError, the inner one is [null]. *)
Definition placeholder (ios : bool) (rs : obj (list Restaurant.t)) (s : State)
  : option (option string) :=
  if ios then Some <$> placeholder_uri rs s else Some None.

(** What the component returns on a platform: the view, with the placeholder
    of the Active view; [None] when rendering throws. *)
Definition returned (ios : bool) (p : Props) (s : State) : option (View * option string) :=
  match view p s, party_restaurants p with
  | Active cards d, Some rs => (λ uri, (Active cards d, uri)) <$> placeholder ios rs s
  | v, _ => Some (v, None)
  end.

End Layout.

Module Traffic.
Import PartyScreen.

Definition sent_message (a : Action) : option Message :=
  match a with Send _ m => Some m | _ => None end.

(** The messages of a list of actions that are not [request-more]: the ones
    the user causes. *)
Definition user_messages (l : list Action) : list Message :=
  filter (λ m, m ≠ RequestMore) (omap sent_message l).

(** The message that the callback of an event sends by itself. *)
Definition event_message (e : Event) : option Message :=
  match e with
  | SwipedRight i => Some (SwipeRight i)
  | PressExitOK => Some Quit
  | _ => None
  end.

Definition is_error_alert (a : Action) : bool :=
  match a with AlertError _ => true | _ => false end.

Definition error_alert_count (l : list Action) : nat :=
  length (filter (λ a, is_error_alert a = true) l).

(** Events whose callback calls [setRestaurants], and new props, whose
    render may. *)
Definition touches_queue (e : Event) : bool :=
  match e with
  | NewProps _ | SetRestaurants _ | PressStartOver => true
  | _ => false
  end.

(** Events whose callback calls [setFinished]. *)
Definition touches_finished (e : Event) : bool :=
  match e with
  | SetFinished _ | PressStartOver => true
  | _ => false
  end.

(** The text of a swipe-right message up to the restaurant id. *)
Definition swipe_right_prefix : string :=
  "{" +:+ JSON.quote "type" +:+ ":" +:+ JSON.quote "swipe-right" +:+ ","
      +:+ JSON.quote "payload" +:+ ":{" +:+ JSON.quote "restaurant_id" +:+ ":"
      +:+ String JSON.dquote EmptyString.

End Traffic.

Module MoreExamples.
Import PartyScreen Examples.

(** A party whose list of restaurants is empty although [total] is not 0. *)
Definition empty_list : Props :=
  party_of 300 "active" (Some (Obj (Outside 301) [])) None 3 None.

(** A finished deck: three restaurants, the finished flag set by the swipe
    window. *)
Definition finished_screen : Mounted := (step (SetFinished true) (enter C9_entry).1).1.

(** A queue of two, and a snapshot whose batch of one brings it to three. *)
Definition short_queue : Mounted :=
  (step (SetRestaurants (Some (Obj (Outside 310) [r "3"; r "4"]))) (enter C4_entry).1).1.
Definition one_more : Props :=
  party_of 311 "active" (Some four) (Some (Obj (Outside 312) [r "5"])) 5 None.

(** An error pushed together with a new batch. *)
Definition error_with_batch : Props :=
  party_of 320 "active" (Some four) (Some (Obj (Outside 321) [r "5"]))
           5 (Some "party not found").



End MoreExamples.

Module Alerts.
Import PartyScreen.

(** The same props, the same party object, without its [error]. *)
Definition without_error (p : Props) : Props :=
  mkProps ((λ o, Obj (addr_of o)
                     (Party.mk (Party.id (val o)) (Party.status (val o))
                               (Party.restaurants (val o)) (Party.current (val o))
                               (Party.total (val o)) None)) <$> party p)
          (ws p).

End Alerts.

(** * Proofs *)

(** ** JSON texts determine their values *)

Section json_facts.
Import JSON.

Lemma append_nil_l (s : string) : EmptyString +:+ s = s.
Proof. reflexivity. Qed.

Lemma append_cons (c : ascii) (s t : string) : String c s +:+ t = String c (s +:+ t).
Proof. reflexivity. Qed.

Lemma append_assoc (a b c : string) : (a +:+ b) +:+ c = a +:+ (b +:+ c).
Proof.
  induction a as [|x a IH]; [done|].
  by rewrite !append_cons, IH.
Qed.

Ltac string_norm :=
  repeat (rewrite append_assoc || rewrite append_cons || rewrite append_nil_l).

Lemma unquote_escape (c : ascii) (t : string) :
  unquote (escape c +:+ t) =
  match unquote t with
  | Some (u, rest) => Some (String c u, rest)
  | None => None
  end.
Proof. destruct c as [[] [] [] [] [] [] [] []]; reflexivity. Qed.

Lemma unquote_escape_all (s rest : string) :
  unquote (escape_all s +:+ String dquote rest) = Some (s, rest).
Proof.
  induction s as [|c s IH]; [done|].
  cbn [escape_all]. by rewrite append_assoc, unquote_escape, IH.
Qed.

Lemma escape_all_inj (a b x y : string) :
  escape_all a +:+ String dquote x = escape_all b +:+ String dquote y → a = b ∧ x = y.
Proof.
  intros H. apply (f_equal unquote) in H.
  rewrite !unquote_escape_all in H. by simplify_eq.
Qed.

Lemma stringify_restaurant_inj (r1 r2 : Restaurant.t) (x y : string) :
  stringify_restaurant r1 +:+ x = stringify_restaurant r2 +:+ y → r1 = r2 ∧ x = y.
Proof.
  unfold stringify_restaurant. string_norm.
  intros [= H]. revert H. string_norm.
  intros [Hid [= H]]%escape_all_inj. revert H. string_norm.
  intros [Hurl [= H]]%escape_all_inj.
  destruct r1, r2; cbn in *. by simplify_eq.
Qed.

Lemma stringify_restaurant_head (r : Restaurant.t) (x : string) :
  ∃ t, stringify_restaurant r +:+ x = String "{" t.
Proof. unfold stringify_restaurant. string_norm. eauto. Qed.

Lemma append_nil_r (s : string) : s +:+ EmptyString = s.
Proof. induction s as [|c s IH]; [done|]. by rewrite append_cons, IH. Qed.

Lemma stringify_elements_cons (r : Restaurant.t) (l : list Restaurant.t) :
  stringify_elements (r :: l) =
  stringify_restaurant r +:+
    match l with [] => EmptyString | _ :: _ => String "," (stringify_elements l) end.
Proof. destruct l; cbn [stringify_elements]; [by rewrite append_nil_r|done]. Qed.

Lemma stringify_elements_inj (l1 l2 : list Restaurant.t) (x y : string) :
  stringify_elements l1 +:+ String "]" x = stringify_elements l2 +:+ String "]" y →
  l1 = l2.
Proof.
  revert l2. induction l1 as [|r1 l1 IH]; intros [|r2 l2]; [done|..].
  - rewrite stringify_elements_cons, append_assoc.
    destruct (stringify_restaurant_head r2
      (match l2 with [] => EmptyString | _ :: _ => String "," (stringify_elements l2) end
       +:+ String "]" y)) as [t ->]. done.
  - rewrite stringify_elements_cons, append_assoc.
    destruct (stringify_restaurant_head r1
      (match l1 with [] => EmptyString | _ :: _ => String "," (stringify_elements l1) end
       +:+ String "]" x)) as [t ->]. done.
  - rewrite !stringify_elements_cons, !append_assoc.
    intros [-> H]%stringify_restaurant_inj. f_equal.
    destruct l1 as [|a l1], l2 as [|b l2]; [done|done|done|].
    apply IH. revert H. string_norm. by intros [= H].
Qed.

Lemma stringify_array_inj (l1 l2 : list Restaurant.t) :
  stringify_array l1 = stringify_array l2 → l1 = l2.
Proof.
  unfold stringify_array. string_norm. intros [= H].
  by apply stringify_elements_inj in H.
Qed.

(** Two texts of [JSON.stringify] are equal exactly when the two values are
    the same up to the addresses of the arrays. *)
Lemma stringify_eq_iff (x y : option (obj (list Restaurant.t))) :
  stringify x = stringify y ↔ val <$> x = val <$> y.
Proof.
  unfold stringify. destruct x as [[a l]|], y as [[b k]|]; cbn; split; try done.
  - intros H. f_equal. apply stringify_array_inj. congruence.
  - by intros [= ->].
Qed.

(** Distinct messages have distinct texts on the socket. *)
Lemma wire_inj (a b : Message) : wire a = wire b → a = b.
Proof.
  destruct a as [| |i], b as [| |j]; try done; unfold wire; string_norm;
    intros [= H]; try done.
  revert H. string_norm. by intros [-> _]%escape_all_inj.
Qed.

End json_facts.

(** ** One render pass, one event *)

Section render_facts.
Import PartyScreen.
Implicit Types (p : Props) (s : State) (m : Mounted) (e : Event).

Lemma party_or_empty_val p n : val (party_or_empty p n).1 = party_value p.
Proof. unfold party_or_empty, party_value. by destruct (party p). Qed.

Lemma party_current_value p : party_current p = Party.current (party_value p).
Proof. unfold party_current, party_value. by destruct (party p). Qed.

Lemma current_changed_same prev p :
  val <$> Party.current prev = val <$> party_current p → current_changed prev p = false.
Proof.
  intros H. unfold current_changed, JSON.stringify.
  apply bool_decide_eq_false. intros Hne. apply Hne.
  rewrite !option_fmap_compose. by rewrite H.
Qed.

Lemma reconcile_effect_Some prev p s n res :
  reconcile_effect prev p s n = Some res →
  ∃ q c, restaurants s = Some q ∧ party_current p = Some c ∧ val c ≠ []
         ∧ current_changed prev p = true ∧ res = Obj (Inside n) (val q ++ val c).
Proof.
  unfold reconcile_effect. destruct (current_changed prev p); [|done].
  destruct (party_current p) as [c|]; [|done].
  destruct (restaurants s) as [q|]; [|done].
  case_bool_decide as Hlen; [|done]. intros [= <-].
  exists q, c. repeat split; try done. by destruct (val c).
Qed.

Lemma reconcile_effect_quiet prev p s n :
  val <$> Party.current prev = val <$> party_current p → reconcile_effect prev p s n = None.
Proof. intros H. unfold reconcile_effect. by rewrite current_changed_same. Qed.

Lemma render_unfold p s :
  render p s =
  let value := (party_or_empty p (fresh s)).1 in
  let n := (party_or_empty p (fresh s)).2 in
  let rdeps := (addr_of <$> restaurants s, ws p) in
  let cdeps := (addr_of <$> party p, addr_of (previous s), addr_of <$> restaurants s) in
  let res := if bool_decide (cdeps = reconcile_deps s) then None
             else reconcile_effect (val (previous s)) p s n in
  mkPass (mkState (finished s) (match res with Some r => Some r | None => restaurants s end)
                  (details s) value rdeps cdeps (match res with Some _ => S n | None => n end))
         (error_alert p ++ if bool_decide (rdeps = request_deps s) then []
                           else request_more_effect p s)
         (view p s) (bool_decide (is_Some res)).
Proof. unfold render. by destruct (party_or_empty p (fresh s)). Qed.

Lemma render_frame p s :
  finished (next (render p s)) = finished s
  ∧ details (next (render p s)) = details s
  ∧ val (previous (next (render p s))) = party_value p
  ∧ request_deps (next (render p s)) = (addr_of <$> restaurants s, ws p)
  ∧ shown (render p s) = view p s.
Proof. rewrite render_unfold. cbn. by rewrite party_or_empty_val. Qed.

Lemma render_queue p s :
  (rerender (render p s) = false ∧ restaurants (next (render p s)) = restaurants s)
  ∨ (∃ q c n, rerender (render p s) = true
       ∧ restaurants s = Some q ∧ party_current p = Some c ∧ val c ≠ []
       ∧ current_changed (val (previous s)) p = true
       ∧ restaurants (next (render p s)) = Some (Obj (Inside n) (val q ++ val c))).
Proof.
  rewrite render_unfold. cbn.
  destruct (bool_decide (_ = reconcile_deps s)); [by left|].
  destruct (reconcile_effect _ p s _) as [res|] eqn:Hres; [|by left].
  apply reconcile_effect_Some in Hres as (q & c & ? & ? & ? & ? & ->).
  right. by exists q, c, (party_or_empty p (fresh s)).2.
Qed.

Lemma render_quiet p s :
  val <$> Party.current (val (previous s)) = val <$> party_current p →
  rerender (render p s) = false ∧ restaurants (next (render p s)) = restaurants s.
Proof.
  intros H. rewrite render_unfold. cbn.
  rewrite reconcile_effect_quiet by done.
  by destruct (bool_decide (_ = reconcile_deps s)).
Qed.

Lemma second_pass_quiet p s :
  rerender (render p (next (render p s))) = false
  ∧ restaurants (next (render p (next (render p s)))) = restaurants (next (render p s)).
Proof.
  apply render_quiet. destruct (render_frame p s) as (_ & _ & -> & _).
  by rewrite party_current_value.
Qed.

Lemma request_more_count_app l k :
  request_more_count (l ++ k) = request_more_count l + request_more_count k.
Proof. unfold request_more_count. by rewrite filter_app, length_app. Qed.

Lemma request_more_count_error_alert p : request_more_count (error_alert p) = 0.
Proof. unfold error_alert. by destruct (truthy _). Qed.

Lemma render_actions p s :
  actions (render p s) =
  error_alert p ++ if bool_decide ((addr_of <$> restaurants s, ws p) = request_deps s)
                   then [] else request_more_effect p s.
Proof. by rewrite render_unfold. Qed.

Lemma render_request_more p s :
  request_more_count (actions (render p s)) =
  if bool_decide ((addr_of <$> restaurants s, ws p) ≠ request_deps s
                  ∧ (length ∘ val) <$> restaurants s = Some 3)
  then 1 else 0.
Proof.
  rewrite render_actions, request_more_count_app, request_more_count_error_alert.
  unfold request_more_effect.
  destruct (decide ((addr_of <$> restaurants s, ws p) = request_deps s)) as [Hd|Hd];
    [rewrite (bool_decide_eq_true_2 _ Hd)|rewrite (bool_decide_eq_false_2 _ Hd)].
  - rewrite bool_decide_eq_false_2; [done|]. by intros [? _].
  - destruct (restaurants s) as [q|]; cbn.
    + case_bool_decide as Hl.
      * rewrite bool_decide_eq_true_2; [done|]. by rewrite Hl.
      * rewrite bool_decide_eq_false_2; [done|]. by intros [_ [= ?]].
    + rewrite bool_decide_eq_false_2; [done|]. by intros [_ ?].
Qed.

Lemma commit_props m : props (commit m).1 = props m.
Proof. unfold commit. by destruct (rerender _). Qed.

Lemma commit_settled m : settled (commit m).1.
Proof.
  unfold commit. destruct (rerender (render (props m) (state m))) eqn:Hr; cbn.
  - destruct (render_frame (props m) (next (render (props m) (state m))))
      as (_ & _ & Hp & Hd & _).
    destruct (second_pass_quiet (props m) (state m)) as [_ Hq].
    split; cbn; [|done]. by rewrite Hd, Hq.
  - destruct (render_frame (props m) (state m)) as (_ & _ & Hp & Hd & _).
    destruct (render_queue (props m) (state m)) as [[_ Hq]|(?&?&?&?&_)]; [|congruence].
    split; cbn; [|done]. by rewrite Hd, Hq.
Qed.

Lemma commit_frame m :
  finished (state (commit m).1) = finished (state m)
  ∧ details (state (commit m).1) = details (state m).
Proof.
  unfold commit. destruct (rerender _); cbn.
  - destruct (render_frame (props m) (next (render (props m) (state m)))) as (-> & -> & _).
    by destruct (render_frame (props m) (state m)) as (-> & -> & _).
  - by destruct (render_frame (props m) (state m)) as (-> & -> & _).
Qed.

(** The queue after the renders of one event: as before, or the batch of the
    party appended once. *)
Lemma commit_queue m :
  restaurants (state (commit m).1) = restaurants (state m)
  ∨ (∃ q c n, restaurants (state m) = Some q ∧ party_current (props m) = Some c
       ∧ val c ≠ [] ∧ current_changed (val (previous (state m))) (props m) = true
       ∧ restaurants (state (commit m).1) = Some (Obj (Inside n) (val q ++ val c))).
Proof.
  unfold commit.
  destruct (render_queue (props m) (state m)) as [[-> Hq]|(q & c & n & -> & ? & ? & ? & ? & Hq)]; cbn.
  - by left.
  - right. exists q, c, n. repeat split; try done.
    by destruct (second_pass_quiet (props m) (state m)) as [_ ->].
Qed.

Lemma commit_quiet m :
  val <$> Party.current (val (previous (state m))) = val <$> party_current (props m) →
  restaurants (state (commit m).1) = restaurants (state m)
  ∧ (commit m).2 = actions (render (props m) (state m)).
Proof.
  intros H. unfold commit.
  by destruct (render_quiet (props m) (state m) H) as [-> Hq].
Qed.

(** The first render sets no state: the queue does not exist yet. *)
Lemma mount_unfold p :
  mount p =
  let value := (party_or_empty p 0).1 in
  mkPass (mkState false None None value (None, ws p)
                  (addr_of <$> party p, addr_of value, None) (party_or_empty p 0).2)
         (error_alert p) (view p (mkState false None None value (None, ws p)
                  (addr_of <$> party p, addr_of value, None) (party_or_empty p 0).2))
         false.
Proof.
  unfold mount, usePrevious. destruct (party_or_empty p 0) as [value n] eqn:Hv.
  cbn [fst snd]. rewrite reconcile_effect_quiet.
  - cbn. by rewrite app_nil_r.
  - by rewrite party_current_value, <-(party_or_empty_val p 0), Hv.
Qed.

Lemma enter_settled p : settled (enter p).1.
Proof.
  unfold enter. rewrite mount_unfold. cbn.
  split; cbn; [done|]. apply party_or_empty_val.
Qed.

Lemma step_settled e m : settled m → settled (step e m).1.
Proof.
  intros Hm. unfold step. destruct (handle e m) as [m1 out].
  case_bool_decide as Heq; [by subst|].
  destruct (commit m1) as [m2 out'] eqn:Hc.
  change m2 with (m2, out').1. rewrite <-Hc. apply commit_settled.
Qed.

Lemma reachable_settled m : reachable m → settled m.
Proof. induction 1; auto using enter_settled, step_settled. Qed.

End render_facts.

(** ** Events in a settled screen *)

Section event_facts.
Import PartyScreen.
Implicit Types (p : Props) (s : State) (m : Mounted) (e : Event).

Lemma current_changed_iff prev p :
  current_changed prev p = true ↔ val <$> Party.current prev ≠ val <$> party_current p.
Proof.
  unfold current_changed. rewrite bool_decide_eq_true.
  by rewrite stringify_eq_iff.
Qed.

Lemma event_cases e : (∃ p', e = NewProps p') ∨ (∀ p', e ≠ NewProps p').
Proof. destruct e; [left; eauto|right; done..]. Qed.

Lemma handle_hooks e m :
  previous (state (handle e m).1) = previous (state m)
  ∧ request_deps (state (handle e m).1) = request_deps (state m)
  ∧ request_more_count (handle e m).2 = 0.
Proof.
  destruct e; cbn; try done.
  by destruct (view _ _).
Qed.

Lemma handle_props e m : (∀ p', e ≠ NewProps p') → props (handle e m).1 = props m.
Proof.
  intros Hne. destruct e; cbn; try done.
  - by destruct (Hne p).
  - by destruct (view _ _).
Qed.

Lemma step_unfold e m :
  step e m =
  if bool_decide ((handle e m).1 = m) then handle e m
  else ((commit (handle e m).1).1, (handle e m).2 ++ (commit (handle e m).1).2).
Proof.
  unfold step. destruct (handle e m) as [m1 out]. cbn.
  case_bool_decide; [done|]. by destruct (commit m1).
Qed.

Lemma deps_changed_iff (a b : option addr) (w : nat) : (a, w) ≠ (b, w) ↔ a ≠ b.
Proof. split; intros H; congruence. Qed.

(** An event other than new props, in a settled screen: the render after the
    callback appends nothing, and asks for more exactly when the callback put
    another array of three entries in the queue. *)
Lemma step_quiet e m :
  settled m → (∀ p', e ≠ NewProps p') →
  restaurants (state (step e m).1) = restaurants (state (handle e m).1)
  ∧ request_more_count (step e m).2 =
    if bool_decide (addr_of <$> restaurants (state (handle e m).1)
                      ≠ addr_of <$> restaurants (state m)
                    ∧ (length ∘ val) <$> restaurants (state (handle e m).1) = Some 3)
    then 1 else 0.
Proof.
  intros [Hdeps Hprev] Hne. rewrite step_unfold.
  destruct (handle_hooks e m) as (Hp & Hd & Hout).
  pose proof (handle_props e m Hne) as Hprops.
  case_bool_decide as Heq.
  - split; [done|]. rewrite Hout, Heq.
    rewrite bool_decide_eq_false_2; [done|]. by intros [? _].
  - cbn [fst snd]. destruct (commit_quiet (handle e m).1) as [Hq Hact].
    { by rewrite Hp, Hprops, Hprev, party_current_value. }
    split; [done|].
    rewrite request_more_count_app, Hout, Hact, render_request_more.
    rewrite Hd, Hdeps, Hprops, Nat.add_0_l.
    erewrite bool_decide_ext; [reflexivity|]. by rewrite deps_changed_iff.
Qed.

(** New props: the party's batch is appended once or not at all. *)
Lemma step_push_queue p' m :
  restaurants (state (step (NewProps p') m).1) = restaurants (state m)
  ∨ (∃ q c n, restaurants (state m) = Some q ∧ party_current p' = Some c ∧ val c ≠ []
       ∧ current_changed (val (previous (state m))) p' = true
       ∧ restaurants (state (step (NewProps p') m).1)
         = Some (Obj (Inside n) (val q ++ val c))).
Proof.
  rewrite step_unfold. cbn. case_bool_decide; [by left|]. cbn.
  apply (commit_queue (mkMounted p' (state m))).
Qed.

Lemma step_push_frame p' m :
  props (step (NewProps p') m).1 = p'
  ∧ finished (state (step (NewProps p') m).1) = finished (state m)
  ∧ details (state (step (NewProps p') m).1) = details (state m).
Proof.
  rewrite step_unfold. cbn. case_bool_decide as Heq; cbn.
  - by rewrite <-Heq.
  - rewrite commit_props. by destruct (commit_frame (mkMounted p' (state m))) as [-> ->].
Qed.

Lemma step_push_no_request p' m :
  settled m → ws p' = ws (props m) →
  addr_of <$> restaurants (state (step (NewProps p') m).1) = addr_of <$> restaurants (state m) →
  request_more_count (step (NewProps p') m).2 = 0.
Proof.
  intros [Hdeps _] Hws. rewrite step_unfold. cbn [handle fst snd].
  case_bool_decide; [done|]. rewrite app_nil_l.
  unfold commit. cbn [props state].
  destruct (render_frame p' (state m)) as (_ & _ & _ & Hd1 & _).
  destruct (second_pass_quiet p' (state m)) as [_ Hq2].
  destruct (rerender (render p' (state m))) eqn:Hr; cbn [fst snd props state]; intros Hsame.
  - rewrite request_more_count_app, !render_request_more.
    rewrite Hdeps, Hws, Hd1, Hq2 in *.
    rewrite !bool_decide_eq_false_2; [done|..]; intros [Hc _]; apply Hc; congruence.
  - rewrite render_request_more, Hdeps, Hws.
    rewrite bool_decide_eq_false_2; [done|]. by intros [Hc _].
Qed.

Lemma run_cons e es m : (run m (e :: es)).1 = (run (step e m).1 es).1.
Proof. cbn [run]. destruct (step e m) as [m1 out]. cbn [fst]. by destruct (run m1 es). Qed.

Lemma sublist_concat {A} (l k : list (list A)) :
  l `sublist_of` k → concat l `sublist_of` concat k.
Proof.
  induction 1; cbn; [done|by apply sublist_app|by apply sublist_inserts_l].
Qed.

Lemma run_pushes_queue w ps : ∀ m q,
  restaurants (state m) = Some q →
  ∃ batches q', batches `sublist_of` pushed_batches ps
    ∧ restaurants (state (run m (pushes w ps)).1) = Some q'
    ∧ val q' = val q ++ concat batches.
Proof.
  induction ps as [|o ps IH]; intros m q Hq.
  - exists [], q. cbn. by rewrite app_nil_r.
  - unfold pushes. rewrite fmap_cons, run_cons. fold (pushes w ps).
    destruct (step_push_queue (mkProps (Some o) w) m)
      as [Hsame|(q0 & c & n & Hq0 & Hc & _ & _ & Hnew)].
    + destruct (IH _ q (eq_trans Hsame Hq)) as (bs & q' & Hsub & Hq' & Hval).
      exists bs, q'. split_and!; [|done..].
      unfold pushed_batches. cbn. destruct (val <$> Party.current (val o)); [|done].
      by apply sublist_cons.
    + destruct (IH _ _ Hnew) as (bs & q' & Hsub & Hq' & Hval).
      exists (val c :: bs), q'. cbn in Hc, Hval. simplify_eq. split_and!; [|done|].
      * unfold pushed_batches. cbn. rewrite Hc. cbn. by apply sublist_skip.
      * cbn. by rewrite Hval, <-app_assoc.
Qed.

Lemma render_sends p s :
  filter (λ a, is_send a = true) (actions (render p s)) =
  if bool_decide ((addr_of <$> restaurants s, ws p) ≠ request_deps s
                  ∧ (length ∘ val) <$> restaurants s = Some 3)
  then [Send (ws p) RequestMore] else [].
Proof.
  rewrite render_actions, filter_app.
  replace (filter _ (error_alert p)) with (@nil Action)
    by (unfold error_alert; by destruct (truthy _)).
  unfold request_more_effect. cbn [app].
  destruct (decide ((addr_of <$> restaurants s, ws p) = request_deps s)) as [Hd|Hd];
    [rewrite (bool_decide_eq_true_2 _ Hd)|rewrite (bool_decide_eq_false_2 _ Hd)].
  - rewrite bool_decide_eq_false_2; [done|]. by intros [? _].
  - destruct (restaurants s) as [q|]; cbn.
    + case_bool_decide as Hl.
      * rewrite bool_decide_eq_true_2; [done|]. by rewrite Hl.
      * rewrite bool_decide_eq_false_2; [done|]. by intros [_ [= ?]].
    + rewrite bool_decide_eq_false_2; [done|]. by intros [_ ?].
Qed.

Lemma reachable_run m es : reachable m → reachable (run m es).1.
Proof.
  revert m. induction es as [|e es IH]; intros m Hm; [done|].
  rewrite run_cons. by apply IH, reach_step.
Qed.

Lemma step_props e m : no_push e → props (step e m).1 = props m.
Proof.
  intros He. rewrite step_unfold. case_bool_decide as Heq; cbn [fst].
  - by apply handle_props.
  - rewrite commit_props. by apply handle_props.
Qed.

Lemma run_props m es : Forall no_push es → props (run m es).1 = props m.
Proof.
  revert m. induction es as [|e es IH]; intros m Hes; [done|].
  apply Forall_cons in Hes as [He Hes].
  by rewrite run_cons, IH, step_props.
Qed.

End event_facts.

(** ** The scenario of section 8, run on the model *)

Section scenario.
Import PartyScreen Examples.

Example scenario_shows_code :
  current_view (enter scenario_waiting).1 = Waiting (Some "AB12").
Proof. reflexivity. Qed.

Example scenario_one_request_more :
  request_more_count
    (run (enter scenario_waiting).1 (NewProps scenario_active :: scenario_swipes)).2 = 1
  ∧ queue (run (enter scenario_waiting).1 (NewProps scenario_active :: scenario_swipes)).1
    = Some [r "8"; r "9"; r "10"].
Proof. split; reflexivity. Qed.

Example scenario_batch_appended :
  queue (run (enter scenario_waiting).1
             (NewProps scenario_active :: scenario_swipes ++ [NewProps scenario_batch])).1
  = Some [r "8"; r "9"; r "10"; r "11"; r "12"; r "13"].
Proof. reflexivity. Qed.

End scenario.

(** ** The claims *)

Section claims.
Import PartyScreen Alerts Examples MoreExamples.
Implicit Types (p : Props) (s : State) (m : Mounted) (e : Event).

(** C1, as the code has it: over any sequence of pushed snapshots the Local
    Queue only grows at its end, by whole [current] batches taken in push
    order; nothing is reordered, nothing is deduplicated.  The queue is free
    of repeated ids when the ids of the starting queue and of the pushed
    batches are pairwise distinct. *)
Theorem merged_batches_appended_in_push_order m w ps q :
  queue m = Some q →
  ∃ batches,
    batches `sublist_of` pushed_batches ps
    ∧ queue (run m (pushes w ps)).1 = Some (q ++ concat batches)
    ∧ (NoDup (Spec.ids (q ++ concat (pushed_batches ps))) →
       NoDup (Spec.ids (q ++ concat batches))).
Proof.
  unfold queue. destruct (restaurants (state m)) as [q0|] eqn:Hq0; [|done].
  intros [= <-].
  destruct (run_pushes_queue w ps m q0 Hq0) as (bs & q' & Hsub & Hq' & Hval).
  exists bs. split_and!; [done|by rewrite Hq'; cbn; rewrite Hval|].
  intros Hnd. eapply sublist_NoDup; [exact Hnd|].
  unfold Spec.ids. apply fmap_sublist, sublist_app; [done|by apply sublist_concat].
Qed.

Lemma merged_batches_appended_witness :
  ∃ batches,
    batches `sublist_of` pushed_batches [C1_push]
    ∧ queue (run C1_seeded (pushes 0 [C1_push])).1 = Some ([r "1"; r "2"] ++ concat batches)
    ∧ (NoDup (Spec.ids ([r "1"; r "2"] ++ concat (pushed_batches [C1_push]))) →
       NoDup (Spec.ids ([r "1"; r "2"] ++ concat batches))).
Proof. apply (merged_batches_appended_in_push_order C1_seeded 0 [C1_push]). reflexivity. Defined.

(** C1 as stated fails: the pushed batch repeats restaurant 2, which the
    queue already holds, and the reconciler appends it all the same. *)
Lemma queue_repeats_pushed_id :
  queue C1_screen = Some [r "1"; r "2"; r "2"]
  ∧ ¬ NoDup (Spec.ids (default [] (queue C1_screen))).
Proof.
  split; [reflexivity|].
  change (queue C1_screen) with (Some [r "1"; r "2"; r "2"]). cbn.
  rewrite !NoDup_cons. intros (_ & Hin & _). apply Hin. by left.
Qed.

(** C2, as the code has it: a snapshot with [total === 0] (and a status other
    than waiting) brings up the Exhausted view at once, whatever the Local
    Queue holds and whatever the finished flag is. *)
Theorem total_zero_shows_Exhausted_at_once m p' :
  party_total p' = Some 0%Z → party_status p' ≠ Some "waiting" →
  current_view (step (NewProps p') m).1 = Exhausted.
Proof.
  intros Htotal Hstatus. unfold current_view, view.
  destruct (step_push_frame p' m) as (-> & _ & _).
  rewrite (bool_decide_eq_false_2 _ Hstatus), (bool_decide_eq_true_2 _ Htotal).
  by rewrite orb_true_r.
Qed.

Lemma total_zero_shows_Exhausted_witness :
  current_view (step (NewProps C2_push) C2_before).1 = Exhausted.
Proof. apply (total_zero_shows_Exhausted_at_once C2_before C2_push); [reflexivity|done]. Defined.

(** C2 as stated fails: three cards are left and the finished flag is unset,
    yet the snapshot with [total: 0] replaces the cards by the Exhausted
    view. *)
Lemma total_zero_hides_remaining_cards :
  party_total (props C2_screen) = Some 0%Z
  ∧ queue C2_screen = Some [r "2"; r "3"; r "4"]
  ∧ finished (state C2_screen) = false
  ∧ current_view C2_screen = Exhausted
  ∧ ¬ ∃ cards d, current_view C2_screen = Active cards d.
Proof. split_and!; [reflexivity..|]. by intros (cards & d & H). Qed.

(** C3, as the code has it: the returned view follows Waiting, then
    Exhausted, then Loading, then Active.  The error alert is raised by every
    render whose party has a non-empty error, on top of that view and without
    replacing it; the exit confirmation is raised by the back button alone. *)
Theorem view_precedence_is_waiting_exhausted_loading_active p s :
  shown (render p s) = view p s
  ∧ (party_status p = Some "waiting" → view p s = Waiting (party_id p))
  ∧ (party_status p ≠ Some "waiting" →
     finished s = true ∨ party_total p = Some 0%Z → view p s = Exhausted)
  ∧ (party_status p ≠ Some "waiting" → finished s = false → party_total p ≠ Some 0%Z →
     party_restaurants p = None → view p s = Loading)
  ∧ (∀ rs, party_status p ≠ Some "waiting" → finished s = false →
     party_total p ≠ Some 0%Z → party_restaurants p = Some rs →
     view p s = Active (default rs (restaurants s)) (details s))
  ∧ (∀ msg, AlertError msg ∈ actions (render p s)
            ↔ party_error p = Some msg ∧ msg ≠ EmptyString)
  ∧ (∀ m, handle HardwareBack m = (m, [AlertExit]))
  ∧ AlertExit ∉ actions (render p s).
Proof.
  split_and!.
  - by destruct (render_frame p s) as (_ & _ & _ & _ & ->).
  - intros H. unfold view. by rewrite (bool_decide_eq_true_2 _ H).
  - intros H [Hf|Ht]; unfold view; rewrite (bool_decide_eq_false_2 _ H).
    + by rewrite Hf.
    + by rewrite (bool_decide_eq_true_2 _ Ht), orb_true_r.
  - intros H Hf Ht Hr. unfold view.
    by rewrite (bool_decide_eq_false_2 _ H), Hf, (bool_decide_eq_false_2 _ Ht), Hr.
  - intros rs H Hf Ht Hr. unfold view.
    by rewrite (bool_decide_eq_false_2 _ H), Hf, (bool_decide_eq_false_2 _ Ht), Hr.
  - intros msg. rewrite render_actions, elem_of_app. unfold error_alert, request_more_effect.
    split.
    + intros [H|H].
      * destruct (party_error p) as [[|c msg']|]; cbn in H; try by inversion H.
        apply list_elem_of_singleton in H as [= ->]. done.
      * destruct (bool_decide _); [by inversion H|].
        destruct (restaurants s); [|by inversion H].
        destruct (bool_decide _); [|by inversion H].
        by apply list_elem_of_singleton in H.
    + intros [-> Hne]. left. destruct msg; [done|]. cbn. by left.
  - done.
  - rewrite render_actions, elem_of_app. unfold error_alert, request_more_effect.
    intros [H|H].
    + destruct (truthy _); [|by inversion H]. by apply list_elem_of_singleton in H.
    + destruct (bool_decide _); [by inversion H|].
      destruct (restaurants s); [|by inversion H].
      destruct (bool_decide _); [|by inversion H].
      by apply list_elem_of_singleton in H.
Qed.

(** C3 as stated fails: the party is waiting and reports [total: 0]; the
    spec's order would give the Exhausted view, the code returns the Waiting
    view. *)
Lemma waiting_wins_over_exhausted :
  party_status (props C3_screen) = Some "waiting"
  ∧ party_total (props C3_screen) = Some 0%Z
  ∧ Spec.view_by_precedence (props C3_screen) (state C3_screen) = Exhausted
  ∧ current_view C3_screen = Waiting (Some "AB12")
  ∧ current_view C3_screen ≠ Spec.view_by_precedence (props C3_screen) (state C3_screen).
Proof. split_and!; [reflexivity..|done]. Qed.

(** C5, as the code has it: the test of a new batch looks at the [current]
    field alone.  It holds exactly when the content of the previous [current]
    and of the new [current] differ; no other field of the Party, and no
    array address, takes part. *)
Theorem new_batch_decided_on_current_alone (prevState : Party.t) p :
  current_changed prevState p = true
  ↔ val <$> Party.current prevState ≠ val <$> party_current p.
Proof. apply current_changed_iff. Qed.

(** C5 as stated fails: the two snapshots differ in [total], so deep equality
    over the whole Party sees a change, while the test of the code sees none
    and nothing is merged. *)
Lemma total_change_is_no_new_batch :
  Spec.full_party_changed C5_prev (party_value C5_next) = true
  ∧ current_changed C5_prev C5_next = false
  ∧ current_changed C5_prev C5_next ≠ Spec.full_party_changed C5_prev (party_value C5_next).
Proof. split_and!; [reflexivity..|done]. Qed.

(** C6: a push whose [current] batch has the content of the [current]
    captured at the previous tick leaves the [restaurants] state as it is:
    nothing is appended, even though the batch is another array object. *)
Theorem identical_batch_is_not_appended_again m p' :
  val <$> party_current p' = val <$> Party.current (val (previous (state m))) →
  restaurants (state (step (NewProps p') m).1) = restaurants (state m).
Proof.
  intros Hsame.
  destruct (step_push_queue p' m) as [H|(q & c & n & _ & _ & _ & Hch & _)]; [done|].
  apply current_changed_iff in Hch. by destruct Hch.
Qed.

Lemma identical_batch_witness :
  restaurants (state (step (NewProps (C6_batch 62)) C6_merged).1)
  = restaurants (state C6_merged).
Proof. apply (identical_batch_is_not_appended_again C6_merged (C6_batch 62)). reflexivity. Defined.


(** C7, as the code has it: a render sends [request-more] exactly when the
    [restaurants] state or the socket is not the one of the previous render
    and the queue holds exactly 3 entries.  The party, and with it the
    lifecycle state, plays no part: with the same socket, any other party
    gives the same number of sends. *)
Theorem request_more_sent_whatever_the_view p s :
  request_more_count (actions (render p s)) =
    (if bool_decide ((addr_of <$> restaurants s, ws p) ≠ request_deps s
                     ∧ (length ∘ val) <$> restaurants s = Some 3)
     then 1 else 0)
  ∧ ∀ p', ws p' = ws p →
      request_more_count (actions (render p' s)) = request_more_count (actions (render p s)).
Proof.
  split; [apply render_request_more|].
  intros p' Hws. by rewrite !render_request_more, Hws.
Qed.

(** C7 as stated fails: the view is Exhausted before and after Start Over is
    pressed, and the render in between sends [request-more]. *)
Lemma request_more_sent_while_Exhausted :
  current_view C7_screen = Exhausted
  ∧ (step PressStartOver C7_screen).2 = [Send 0 RequestMore]
  ∧ current_view (step PressStartOver C7_screen).1 = Exhausted.
Proof. split_and!; reflexivity. Qed.

(** Taking the error away changes no other field and no address. *)
Lemma without_error_fields p :
  party_status (without_error p) = party_status p
  ∧ party_total (without_error p) = party_total p
  ∧ party_id (without_error p) = party_id p
  ∧ party_current (without_error p) = party_current p
  ∧ party_restaurants (without_error p) = party_restaurants p
  ∧ party_error (without_error p) = None
  ∧ addr_of <$> party (without_error p) = addr_of <$> party p
  ∧ ∀ n, (party_or_empty (without_error p) n).2 = (party_or_empty p n).2.
Proof.
  unfold party_status, party_total, party_id, party_current, party_restaurants,
    party_error, party_or_empty, without_error.
  by destruct (party p).
Qed.

(** C8, as the code has it: with a non-empty [party.error] every render
    raises the error alert first, in every hook state and whatever else the
    party says, on top of what it does without the error and not instead of
    it: the same view is returned, the same batch is merged, the same
    messages are sent.  The OK button of the alert sends nothing, navigates
    to Join and resets the party to the empty value, and the render that this
    reset causes sends nothing either. *)
Theorem error_alert_is_raised_on_top_of_the_render p msg :
  party_error p = Some msg → msg ≠ EmptyString →
  (∀ s, actions (render p s) = AlertError msg :: actions (render (without_error p) s)
        ∧ shown (render p s) = shown (render (without_error p) s)
        ∧ rerender (render p s) = rerender (render (without_error p) s)
        ∧ restaurants (next (render p s)) = restaurants (next (render (without_error p) s))
        ∧ finished (next (render p s)) = finished (next (render (without_error p) s))
        ∧ details (next (render p s)) = details (next (render (without_error p) s)))
  ∧ (∃ rest, actions (mount p) = AlertError msg :: rest)
  ∧ (∀ m, step PressErrorOK m = (m, [Navigate Join; SetParty Party.empty]))
  ∧ (∀ m a, reachable m →
       (step (NewProps (mkProps (Some (Obj a Party.empty)) (ws (props m)))) m).2 = []).
Proof.
  intros Herr Hne.
  assert (error_alert p = [AlertError msg]) as Halert.
  { unfold error_alert. rewrite Herr. by destruct msg. }
  destruct (without_error_fields p) as (Hs & Ht & Hi & Hc & Hr & He & Ha & Hn).
  assert (∀ s, view (without_error p) s = view p s) as Hview.
  { intros s. unfold view. by rewrite Hs, Ht, Hi, Hr. }
  assert (∀ prev s n, reconcile_effect prev (without_error p) s n
                      = reconcile_effect prev p s n) as Hrec.
  { intros prev s n. unfold reconcile_effect, current_changed. by rewrite Hc. }
  split_and!.
  - intros s. rewrite (render_unfold p), (render_unfold (without_error p)).
    cbv zeta. cbn [actions shown rerender next restaurants finished details].
    change (ws (without_error p)) with (ws p).
    replace (request_more_effect (without_error p) s) with (request_more_effect p s)
      by done.
    rewrite Ha, Hrec, Hn, Hview, Halert.
    unfold error_alert. rewrite He. cbn [truthy app]. done.
  - rewrite mount_unfold. cbn [actions]. rewrite Halert. eauto.
  - intros m. unfold step. cbn [handle]. by rewrite bool_decide_eq_true_2.
  - intros m a [Hdeps _]%reachable_settled.
    rewrite step_unfold. cbn [handle fst snd]. case_bool_decide; [done|].
    rewrite app_nil_l. unfold commit. cbn [props state].
    destruct (render_queue (mkProps (Some (Obj a Party.empty)) (ws (props m))) (state m))
      as [[-> _]|(q & c & n & _ & _ & Hcur & _)]; [|done].
    cbn [snd]. rewrite render_actions. cbn [ws].
    by rewrite (bool_decide_eq_true_2 _ (eq_sym Hdeps)).
Qed.

Lemma error_alert_on_top_witness :
  (∀ s, actions (render C8_error s)
          = AlertError "party not found" :: actions (render (without_error C8_error) s)
        ∧ shown (render C8_error s) = shown (render (without_error C8_error) s)
        ∧ rerender (render C8_error s) = rerender (render (without_error C8_error) s)
        ∧ restaurants (next (render C8_error s))
          = restaurants (next (render (without_error C8_error) s))
        ∧ finished (next (render C8_error s))
          = finished (next (render (without_error C8_error) s))
        ∧ details (next (render C8_error s))
          = details (next (render (without_error C8_error) s)))
  ∧ (∃ rest, actions (mount C8_error) = AlertError "party not found" :: rest)
  ∧ (∀ m, step PressErrorOK m = (m, [Navigate Join; SetParty Party.empty]))
  ∧ (∀ m a, reachable m →
       (step (NewProps (mkProps (Some (Obj a Party.empty)) (ws (props m)))) m).2 = []).
Proof.
  apply (error_alert_is_raised_on_top_of_the_render C8_error "party not found");
    [reflexivity|done].
Defined.

(** C8 as stated fails: the snapshot carries an error, yet its batch is
    merged, the Active view is returned with the merged cards and
    [request-more] is sent: the alert pre-empts none of it. *)
Lemma error_does_not_stop_merge_or_request_more :
  party_error error_with_batch = Some "party not found"
  ∧ (step (NewProps error_with_batch) short_queue).2
    = [AlertError "party not found"; AlertError "party not found"; Send 0 RequestMore]
  ∧ queue (step (NewProps error_with_batch) short_queue).1 = Some [r "3"; r "4"; r "5"]
  ∧ current_view (step (NewProps error_with_batch) short_queue).1
    = Active (Obj (Inside 0) [r "3"; r "4"; r "5"]) None.
Proof. split_and!; reflexivity. Qed.

(** C9, as the code has it: Start Over in the Exhausted view sets the
    [restaurants] state to [party.restaurants] itself and clears the finished
    flag; props and details stay, and the callback sends nothing.  The render
    that follows appends nothing; it sends one [request-more] exactly when
    [party.restaurants] holds 3 entries and is not already the queue's array,
    and no other message. *)
Theorem start_over_resets_queue_and_flag m :
  reachable m → current_view m = Exhausted →
  (handle PressStartOver m).2 = []
  ∧ props (step PressStartOver m).1 = props m
  ∧ restaurants (state (step PressStartOver m).1) = party_restaurants (props m)
  ∧ finished (state (step PressStartOver m).1) = false
  ∧ details (state (step PressStartOver m).1) = details (state m)
  ∧ filter (λ a, is_send a = true) (step PressStartOver m).2 =
      if bool_decide (addr_of <$> party_restaurants (props m)
                        ≠ addr_of <$> restaurants (state m)
                      ∧ (length ∘ val) <$> party_restaurants (props m) = Some 3)
      then [Send (ws (props m)) RequestMore] else [].
Proof.
  intros [Hdeps Hprev]%reachable_settled Hview. unfold current_view in Hview.
  assert (handle PressStartOver m
          = (mkMounted (props m) (start_over_onPress (props m) (state m)), [])) as Hh.
  { cbn [handle]. by rewrite Hview. }
  rewrite step_unfold, Hh. cbn [fst snd]. split; [done|].
  case_bool_decide as Heq.
  - cbn [fst snd]. split_and!; try done.
    assert (restaurants (state m) = party_restaurants (props m)) as ->
      by (by rewrite <-Heq at 1).
    rewrite bool_decide_eq_false_2; [done|]. by intros [? _].
  - cbn [fst snd app].
    destruct (commit_quiet (mkMounted (props m) (start_over_onPress (props m) (state m))))
      as [Hq ->].
    { cbn. by rewrite Hprev, party_current_value. }
    destruct (commit_frame (mkMounted (props m) (start_over_onPress (props m) (state m))))
      as [Hf Hd].
    rewrite commit_props, Hq, Hf, Hd. cbn [props state].
    split_and!; try done.
    rewrite render_sends. cbn [start_over_onPress restaurants request_deps].
    rewrite Hdeps. erewrite bool_decide_ext; [reflexivity|].
    by rewrite deps_changed_iff.
Qed.

Lemma start_over_resets_witness :
  (handle PressStartOver C9_screen).2 = []
  ∧ props (step PressStartOver C9_screen).1 = C9_entry
  ∧ restaurants (state (step PressStartOver C9_screen).1) = Some three
  ∧ finished (state (step PressStartOver C9_screen).1) = false
  ∧ details (state (step PressStartOver C9_screen).1) = None
  ∧ filter (λ a, is_send a = true) (step PressStartOver C9_screen).2 = [Send 0 RequestMore].
Proof.
  apply (start_over_resets_queue_and_flag C9_screen); [|reflexivity].
  exact (reach_step (SetFinished true) _ (reach_enter C9_entry)).
Defined.

(** C9 as stated fails: the party has exactly three restaurants; pressing
    Start Over after the last swipe makes the next render send
    [request-more]. *)
Lemma start_over_sends_request_more :
  current_view C9_screen = Exhausted
  ∧ queue (step PressStartOver C9_screen).1 = Some [r "1"; r "2"; r "3"]
  ∧ (step PressStartOver C9_screen).2 = [Send 0 RequestMore]
  ∧ ¬ Forall (λ a, is_send a = false) (step PressStartOver C9_screen).2.
Proof.
  split_and!; [reflexivity..|].
  change (step PressStartOver C9_screen).2 with [Send 0 RequestMore].
  by intros [? _]%Forall_cons.
Qed.

(** C10: while the [restaurants] state is undefined a push leaves it
    undefined, whatever batch the snapshot carries, and the batch is not kept
    for later.  As long as no other snapshot arrives, the render after any
    callback leaves in the queue exactly what the callback put there; and a
    later snapshot that carries the same batch again does not merge it
    either. *)
Theorem batch_before_seeding_is_dropped m p' :
  reachable m → restaurants (state m) = None →
  restaurants (state (step (NewProps p') m).1) = None
  ∧ (∀ es e, Forall no_push (es ++ [e]) →
       restaurants (state (step e (run (step (NewProps p') m).1 es).1).1)
       = restaurants (state (handle e (run (step (NewProps p') m).1 es).1).1))
  ∧ (∀ es p'', Forall no_push es →
       val <$> party_current p'' = val <$> party_current p' →
       restaurants (state (step (NewProps p'') (run (step (NewProps p') m).1 es).1).1)
       = restaurants (state (run (step (NewProps p') m).1 es).1)).
Proof.
  intros Hm Hnone. split_and!.
  - destruct (step_push_queue p' m) as [H|(q & c & n & Hq & _)]; congruence.
  - intros es e Hall. rewrite Forall_app, Forall_singleton in Hall.
    destruct Hall as [_ He].
    apply step_quiet; [|exact He].
    by apply reachable_settled, reachable_run, reach_step.
  - intros es p'' Hes Hsame.
    set (m2 := (run (step (NewProps p') m).1 es).1).
    assert (settled m2) as [_ Hprev]
      by by apply reachable_settled, reachable_run, reach_step.
    assert (props m2 = p') as Hprops.
    { unfold m2. rewrite run_props by done. by destruct (step_push_frame p' m) as (-> & _). }
    destruct (step_push_queue p'' m2) as [H|(q & c & n & _ & _ & _ & Hch & _)]; [done|].
    apply current_changed_iff in Hch. destruct Hch.
    by rewrite Hprev, Hprops, <-party_current_value.
Qed.

Lemma batch_before_seeding_witness :
  restaurants (state (step (NewProps C10_push) C10_screen).1) = None
  ∧ restaurants (state (step C10_seed (step (NewProps C10_push) C10_screen).1).1)
    = Some (Obj (Outside 102) [r "2"; r "3"; r "4"])
  ∧ restaurants (state (step (NewProps (C6_batch 104))
                             (step C10_seed (step (NewProps C10_push) C10_screen).1).1).1)
    = Some (Obj (Outside 102) [r "2"; r "3"; r "4"]).
Proof.
  pose proof (batch_before_seeding_is_dropped C10_screen C10_push
                (reach_enter C4_entry) eq_refl) as (H1 & H2 & H3).
  split_and!.
  - exact H1.
  - refine (H2 [] C10_seed _). by repeat constructor.
  - refine (H3 [C10_seed] (C6_batch 104) _ eq_refl). by repeat constructor.
Defined.

End claims.

(** ** The environment table *)

Section env_facts.
Import Env.

Lemma prefix_iff (x s : string) : String.prefix x s = true ↔ ∃ b, s = x +:+ b.
Proof.
  revert s. induction x as [|c x IH]; intros s.
  - destruct s; cbn; split; eauto.
  - destruct s as [|d s]; cbn.
    + split; [done|]. by intros [b ?].
    + destruct (ascii_dec c d) as [->|Hne].
      * rewrite IH. split; intros [b Hb]; exists b.
        -- by rewrite append_cons, <-Hb.
        -- rewrite append_cons in Hb. by simplify_eq.
      * split; [done|]. intros [b Hb]. rewrite append_cons in Hb. by simplify_eq.
Qed.

Lemma indexOf_range (s x : string) : (-1 ≤ indexOf s x)%Z.
Proof.
  induction s as [|c s IH]; cbn [indexOf]; destruct (String.prefix x _); try lia.
  destruct (Z.eqb_spec (indexOf s x) (-1)); lia.
Qed.

Lemma indexOf_found_iff (s x : string) : indexOf s x ≠ (-1)%Z ↔ contains s x.
Proof.
  split.
  - induction s as [|c s IH]; cbn [indexOf];
      destruct (String.prefix x _) eqn:Hp.
    + intros _. apply prefix_iff in Hp as [b ->]. by exists EmptyString, b.
    + done.
    + intros _. apply prefix_iff in Hp as [b ->]. by exists EmptyString, b.
    + destruct (Z.eqb_spec (indexOf s x) (-1)) as [|Hne]; [done|].
      intros _. destruct (IH Hne) as (a & b & ->). by exists (String c a), b.
  - intros (a & b & ->). induction a as [|c a IH].
    + rewrite append_nil_l.
      assert (String.prefix x (x +:+ b) = true) as Hp by (apply prefix_iff; eauto).
      destruct (x +:+ b); cbn [indexOf]; by rewrite Hp.
    + rewrite append_cons. cbn [indexOf]. destruct (String.prefix x _); [done|].
      pose proof (indexOf_range (a +:+ x +:+ b) x).
      destruct (Z.eqb_spec (indexOf (a +:+ x +:+ b) x) (-1)); [done|lia].
Qed.

(** X1: [getEnvVars] returns the production row exactly when a release
    channel is given and has "production" somewhere inside it, and the
    development row in every other case: no channel, or a channel without
    that substring. *)
Theorem getEnvVars_production_iff_channel_contains_production (c : option string) :
  (getEnvVars c = production ↔ ∃ ch, c = Some ch ∧ contains ch "production")
  ∧ (getEnvVars c = development ↔ ¬ ∃ ch, c = Some ch ∧ contains ch "production").
Proof.
  assert (production ≠ development) as Hne by done.
  destruct c as [ch|]; cbn [getEnvVars].
  - pose proof (indexOf_found_iff ch "production") as Hiff.
    destruct (decide (indexOf ch "production" = (-1)%Z)) as [Hi|Hi].
    + rewrite bool_decide_eq_false_2 by (by intros ?).
      assert (¬ contains ch "production") as Hno by (intros ?%Hiff; done).
      split; split; try done.
      * intros (? & [= <-] & ?). done.
      * intros _ (? & [= <-] & ?). done.
    + rewrite bool_decide_eq_true_2 by done.
      apply Hiff in Hi. split; split; try done.
      * eauto.
      * intros H. destruct H. eauto.
  - split; split; try done.
    + by intros (? & ? & _).
    + by intros _ (? & ? & _).
Qed.

End env_facts.

(** ** More of the component *)

Section more_facts.
Import PartyScreen Layout Traffic Examples MoreExamples.
Implicit Types (p : Props) (s : State) (m : Mounted) (e : Event).

(** X2: whatever the release channel, ads are off in the row that
    [getEnvVars] selects, so line 58 never takes the 50 off: the view height
    is the window height less the header height. *)
Theorem viewHeight_never_reserves_the_banner {number : Type}
    (sub : number → number → number) (fifty : number)
    (releaseChannel : option string) (height headerHeight : number) :
  viewHeight sub fifty (Env.getEnvVars releaseChannel) height headerHeight
  = sub height headerHeight.
Proof.
  unfold viewHeight, Env.getEnvVars.
  destruct releaseChannel; [|done]. by case_bool_decide.
Qed.

Lemma render_request_le p s : (request_more_count (actions (render p s)) ≤ 1)%nat.
Proof. rewrite render_request_more. case_bool_decide; lia. Qed.

Lemma commit_request_le m : (request_more_count (commit m).2 ≤ 1)%nat.
Proof.
  unfold commit.
  destruct (render_queue (props m) (state m))
    as [[-> _]|(q & c & n & -> & Hq & _ & Hc & _ & Hnew)]; cbn [snd].
  - apply render_request_le.
  - rewrite request_more_count_app, !render_request_more, Hq, Hnew. cbn.
    do 2 case_bool_decide; try lia.
    destruct H as [_ [= H]]. destruct H0 as [_ [= H0]].
    rewrite length_app in H0. destruct (val c); [done|]. cbn in H0. lia.
Qed.

(** X3: no event, in any state, sends more than one [request-more]: the
    low-queue effect may run in both render passes of an event, but the
    second pass only follows a merge, which makes the queue longer than the
    three entries the first pass would have needed. *)
Theorem at_most_one_request_more_per_event e m :
  (request_more_count (step e m).2 ≤ 1)%nat.
Proof.
  rewrite step_unfold. destruct (handle_hooks e m) as (_ & _ & Hout).
  case_bool_decide; [lia|]. cbn [snd].
  rewrite request_more_count_app, Hout. apply commit_request_le.
Qed.

Lemma step_push_request p' m :
  settled m → ws p' = ws (props m) →
  request_more_count (step (NewProps p') m).2 =
  if bool_decide (addr_of <$> restaurants (state (step (NewProps p') m).1)
                    ≠ addr_of <$> restaurants (state m)
                  ∧ (length ∘ val) <$> restaurants (state (step (NewProps p') m).1) = Some 3)
  then 1 else 0.
Proof.
  intros Hm Hws.
  destruct (decide (addr_of <$> restaurants (state (step (NewProps p') m).1)
                    = addr_of <$> restaurants (state m))) as [Hsame|Hdiff].
  { rewrite step_push_no_request by done.
    rewrite bool_decide_eq_false_2; [done|]. by intros [? _]. }
  destruct Hm as [Hdeps _]. revert Hdiff.
  rewrite step_unfold. cbn [handle fst snd].
  case_bool_decide as Heq; [by rewrite Heq|]. rewrite app_nil_l.
  unfold commit. cbn [props state].
  destruct (render_frame p' (state m)) as (_ & _ & _ & Hd1 & _).
  destruct (second_pass_quiet p' (state m)) as [_ Hq2].
  destruct (render_queue p' (state m)) as [[-> Hq]|(q & c & n & -> & _ & _ & _ & _ & Hnew)];
    cbn [fst snd props state].
  - by rewrite Hq.
  - intros Hdiff. rewrite request_more_count_app, !render_request_more.
    rewrite Hdeps, Hd1, Hq2, !Hws.
    rewrite (bool_decide_eq_false_2 (_ ∧ (length ∘ val) <$> restaurants (state m) = _));
      [|by intros [? _]].
    cbn [Nat.add]. erewrite bool_decide_ext; [reflexivity|].
    by rewrite deps_changed_iff.
Qed.

(** X4: in a reachable screen, an event that leaves the socket as it was
    sends one [request-more] exactly when it leaves another array of exactly
    three entries in the [restaurants] state, and none otherwise.  This covers
    a merged batch that brings a shorter queue up to three. *)
Theorem request_more_exactly_when_queue_becomes_three e m :
  reachable m → ws (props (step e m).1) = ws (props m) →
  request_more_count (step e m).2 =
  if bool_decide (addr_of <$> restaurants (state (step e m).1)
                    ≠ addr_of <$> restaurants (state m)
                  ∧ (length ∘ val) <$> restaurants (state (step e m).1) = Some 3)
  then 1 else 0.
Proof.
  intros Hm%reachable_settled Hws.
  destruct (event_cases e) as [[p' ->]|Hne].
  - apply step_push_request; [done|].
    by destruct (step_push_frame p' m) as (<- & _).
  - destruct (step_quiet e m Hm Hne) as [Hr ->]. by rewrite Hr.
Qed.


Lemma user_messages_app l k : user_messages (l ++ k) = user_messages l ++ user_messages k.
Proof. unfold user_messages. by rewrite omap_app, filter_app. Qed.

Lemma user_messages_render p s : user_messages (actions (render p s)) = [].
Proof.
  rewrite render_actions, user_messages_app.
  unfold error_alert, request_more_effect.
  destruct (truthy _); destruct (bool_decide (_ = request_deps s)); try done;
    destruct (restaurants s); try done; by destruct (bool_decide _).
Qed.

Lemma user_messages_commit m : user_messages (commit m).2 = [].
Proof.
  unfold commit. destruct (rerender _); cbn [snd];
    by rewrite ?user_messages_app, !user_messages_render.
Qed.

Lemma user_messages_step e m :
  user_messages (step e m).2 = option_list (event_message e).
Proof.
  assert (user_messages (handle e m).2 = option_list (event_message e)) as Hh.
  { destruct e; try done. cbn [handle]. by destruct (view _ _). }
  rewrite step_unfold. case_bool_decide; [done|]. cbn [snd].
  by rewrite user_messages_app, Hh, user_messages_commit, app_nil_r.
Qed.

Lemma run_cons_snd e es m : (run m (e :: es)).2 = (step e m).2 ++ (run (step e m).1 es).2.
Proof. cbn [run]. destruct (step e m) as [m1 out]. cbn [fst snd]. by destruct (run m1 es). Qed.

(** X5: over any run of events, the swipe-right and quit messages that are
    sent are exactly those of the [handleSwipeRight] calls and of the
    confirmed exits, in their order, each swipe-right with the id it was
    called with; no render and no other callback sends one. *)
Theorem swipes_and_quits_sent_are_those_of_the_events m es :
  user_messages (run m es).2 = omap event_message es.
Proof.
  revert m. induction es as [|e es IH]; intros m; [done|].
  rewrite run_cons_snd, user_messages_app, user_messages_step, IH.
  cbn [omap list_omap]. by destruct (event_message e).
Qed.

(** X6: entering the screen sends nothing on the socket and leaves the
    [restaurants] state undefined, the finished flag unset and no details,
    whatever the first party carries; if the Active view is returned, the
    swipe window is handed [party.restaurants] itself. *)
Theorem entering_sends_nothing_and_seeds_nothing p :
  Forall (λ a, is_send a = false) (enter p).2
  ∧ restaurants (state (enter p).1) = None
  ∧ finished (state (enter p).1) = false
  ∧ details (state (enter p).1) = None
  ∧ (∀ cards d, current_view (enter p).1 = Active cards d →
       party_restaurants p = Some cards).
Proof.
  unfold enter, current_view. rewrite mount_unfold. cbn.
  split_and!; try done.
  - unfold error_alert. destruct (truthy _); by repeat constructor.
  - intros cards d. unfold view. cbn.
    destruct (bool_decide _); [done|]. destruct (bool_decide _); [done|].
    destruct (party_restaurants p); [|done]. by intros [= -> _].
Qed.

Lemma step_finished e m :
  touches_finished e = false → finished (state (step e m).1) = finished (state m).
Proof.
  intros He. rewrite step_unfold.
  assert (finished (state (handle e m).1) = finished (state m)) as Hh
    by (by destruct e).
  case_bool_decide; [done|]. cbn [fst].
  by destruct (commit_frame (handle e m).1) as [-> _].
Qed.

(** X7: once the finished flag is set, only [setFinished] and Start Over
    can bring the cards back: after any other events, snapshots with new
    batches included, the flag is still set and the view is Exhausted, or
    Waiting when the party says so. *)
Theorem finished_deck_stays_exhausted m es :
  finished (state m) = true →
  Forall (λ e, touches_finished e = false) es →
  finished (state (run m es).1) = true
  ∧ (current_view (run m es).1 = Exhausted
     ∨ current_view (run m es).1 = Waiting (party_id (props (run m es).1))).
Proof.
  intros Hf Hes.
  assert (finished (state (run m es).1) = true) as Hf'.
  { revert m Hf. induction Hes as [|e es He _ IH]; intros m Hf; [done|].
    rewrite run_cons. apply IH. by rewrite step_finished. }
  split; [done|]. unfold current_view, view. rewrite Hf'.
  destruct (bool_decide _); [by right|by left].
Qed.

Lemma step_restaurants e m :
  settled m → touches_queue e = false →
  restaurants (state (step e m).1) = restaurants (state m).
Proof.
  intros Hm He.
  destruct (step_quiet e m Hm) as [-> _]; [by destruct e|].
  by destruct e.
Qed.

(** X8: in a reachable screen, only new props, [setRestaurants] and Start
    Over can change the [restaurants] state: swipes to the right, details,
    the finished flag, the back button and the alert buttons leave it the
    same array. *)
Theorem queue_changes_only_by_setRestaurants_StartOver_or_push m es :
  reachable m → Forall (λ e, touches_queue e = false) es →
  restaurants (state (run m es).1) = restaurants (state m).
Proof.
  intros Hm Hes. revert m Hm.
  induction Hes as [|e es He _ IH]; intros m Hm; [done|].
  rewrite run_cons, IH by by apply reach_step.
  by apply step_restaurants; [apply reachable_settled|].
Qed.


Lemma start_over_fixpoint p s :
  finished s = false → restaurants s = party_restaurants p →
  start_over_onPress p s = s.
Proof. destruct s. cbn. by intros -> ->. Qed.

(** After Start Over in the Exhausted view: same props, the flag cleared,
    the queue [party.restaurants]. *)
Lemma step_start_over m :
  settled m → view (props m) (state m) = Exhausted →
  props (step PressStartOver m).1 = props m
  ∧ finished (state (step PressStartOver m).1) = false
  ∧ restaurants (state (step PressStartOver m).1) = party_restaurants (props m).
Proof.
  intros Hm Hv.
  assert (handle PressStartOver m
          = (mkMounted (props m) (start_over_onPress (props m) (state m)), [])) as Hh
    by (cbn [handle]; by rewrite Hv).
  destruct (step_quiet PressStartOver m Hm) as [Hq _]; [done|].
  rewrite Hq, Hh. cbn [fst props state start_over_onPress restaurants].
  rewrite step_unfold, Hh. cbn [fst].
  case_bool_decide as Heq; [done|]. cbn [fst].
  rewrite commit_props.
  by destruct (commit_frame (mkMounted (props m) (start_over_onPress (props m) (state m))))
    as [-> _].
Qed.

(** X9: in a reachable screen, pressing Start Over a second time changes
    neither the props nor any of the three states and sends nothing on the
    socket, whether or not the view is still Exhausted. *)
Theorem second_start_over_changes_and_sends_nothing m :
  reachable m →
  props (step PressStartOver (step PressStartOver m).1).1 = props (step PressStartOver m).1
  ∧ restaurants (state (step PressStartOver (step PressStartOver m).1).1)
    = restaurants (state (step PressStartOver m).1)
  ∧ finished (state (step PressStartOver (step PressStartOver m).1).1)
    = finished (state (step PressStartOver m).1)
  ∧ details (state (step PressStartOver (step PressStartOver m).1).1)
    = details (state (step PressStartOver m).1)
  ∧ Forall (λ a, is_send a = false) (step PressStartOver (step PressStartOver m).1).2.
Proof.
  intros Hm%reachable_settled.
  assert (step PressStartOver (step PressStartOver m).1 = ((step PressStartOver m).1, []))
    as ->; [|by split_and!].
  assert (∀ m', (view (props m') (state m') = Exhausted →
                 finished (state m') = false
                 ∧ restaurants (state m') = party_restaurants (props m')) →
                step PressStartOver m' = (m', [])) as Hnoop.
  { intros m' Hm'. rewrite step_unfold. cbn [handle].
    destruct (view (props m') (state m')) eqn:Hv;
      try by rewrite bool_decide_eq_true_2.
    destruct Hm' as [Hf Hq]; [done|]. cbn [fst].
    rewrite start_over_fixpoint by done.
    rewrite bool_decide_eq_true_2 by by destruct m'. by destruct m'. }
  apply Hnoop.
  destruct (decide (view (props m) (state m) = Exhausted)) as [Hv|Hv].
  - destruct (step_start_over m Hm Hv) as (-> & -> & ->). done.
  - assert (step PressStartOver m = (m, [])) as ->; [|done].
    rewrite step_unfold. cbn [handle].
    destruct (view (props m) (state m)); try done; by rewrite bool_decide_eq_true_2.
Qed.

Lemma error_alert_count_app l k :
  error_alert_count (l ++ k) = error_alert_count l + error_alert_count k.
Proof. unfold error_alert_count. by rewrite filter_app, length_app. Qed.

Lemma error_alert_count_render p s :
  error_alert_count (actions (render p s)) = if truthy (party_error p) then 1 else 0.
Proof.
  rewrite render_actions, error_alert_count_app.
  unfold error_alert, request_more_effect.
  destruct (truthy _); destruct (bool_decide (_ = request_deps s)); try done;
    destruct (restaurants s); try done; by destruct (bool_decide _).
Qed.

(** X10: the error alert is raised in the function body, once per render
    pass: a snapshot with a non-empty error raises it once, and twice when
    its batch is merged, since the merge causes a second pass. *)
Theorem error_alert_raised_once_per_render_pass p' m :
  truthy (party_error p') = true → p' ≠ props m →
  error_alert_count (step (NewProps p') m).2 =
  if bool_decide (queue (step (NewProps p') m).1 = queue m) then 1 else 2.
Proof.
  intros Herr Hp. rewrite step_unfold. cbn [handle fst snd].
  rewrite bool_decide_eq_false_2 by (intros Heq; apply Hp; by rewrite <-Heq).
  rewrite app_nil_l. unfold commit, queue. cbn [props state fst snd].
  destruct (second_pass_quiet p' (state m)) as [_ Hq2].
  destruct (render_queue p' (state m))
    as [[-> Hsame]|(q & c & n & -> & Hq & _ & Hc & _ & Hnew)]; cbn [fst snd props state].
  - by rewrite error_alert_count_render, Herr, Hsame, bool_decide_eq_true_2.
  - rewrite error_alert_count_app, !error_alert_count_render, Herr, Hq2, Hnew, Hq.
    rewrite bool_decide_eq_false_2; [done|]. cbn. intros [= H].
    apply (f_equal length) in H. rewrite length_app in H.
    destruct (val c); [done|]. cbn in H. lia.
Qed.

(** X11: on iOS, whenever the deck handed to the swipe window has a first
    card, the placeholder behind it shows the image of that card. *)
Theorem placeholder_shows_the_top_card (rs : obj (list Restaurant.t)) s r0 :
  head (val (default rs (restaurants s))) = Some r0 →
  placeholder true rs s = Some (Some (Restaurant.image_url r0)).
Proof.
  unfold placeholder, placeholder_uri.
  destruct (restaurants s) as [[a [|r1 q]]|]; cbn; try done.
  - by intros [= ->].
  - by intros ->.
Qed.

(** X12: rendering throws exactly on iOS, in the Active view, when
    [party.restaurants] is empty and the Local Queue is undefined or empty:
    the placeholder then reads [image_url] of [undefined].  On other
    platforms, and in every other view, rendering returns. *)
Theorem rendering_throws_iff_ios_and_no_restaurant_at_all (ios : bool) p s :
  returned ios p s = None
  ↔ ios = true
    ∧ (∃ cards d, view p s = Active cards d)
    ∧ val <$> party_restaurants p = Some []
    ∧ (queue (mkMounted p s) = None ∨ queue (mkMounted p s) = Some []).
Proof.
  unfold returned, placeholder, placeholder_uri, queue. cbn [state].
  destruct (view p s) eqn:Hv.
  1,2,3: split; [done|]; by intros (_ & (? & ? & ?) & _).
  assert (party_restaurants p ≠ None) as Hrs.
  { intros Hn. revert Hv. unfold view. rewrite Hn.
    destruct (bool_decide _); [done|]. by destruct (_ || _). }
  destruct (party_restaurants p) as [[a rs]|]; [|done]. cbn.
  destruct ios; cbn.
  - destruct (restaurants s) as [[b [|r1 q]]|]; destruct rs as [|r0 rs]; cbn;
      split; try done; try (intros _; split_and!; eauto; done);
      try by intros (_ & _ & [= ?] & _).
    + intros (_ & _ & _ & [[= ?]|[= ?]]).
  - split; [done|]. by intros [? _].
Qed.


(** X13: the texts given to [ws.send] tell the messages apart, and the
    text of a swipe-right reads back to the restaurant id it was built
    from, whatever characters the id holds. *)
Theorem socket_text_determines_the_message :
  (∀ a b, wire a = wire b → a = b)
  ∧ (∀ i, ∃ text, wire (SwipeRight i) = swipe_right_prefix +:+ text
                  ∧ JSON.unquote text = Some (i, "}}")).
Proof.
  split; [apply wire_inj|].
  intros i. exists (JSON.escape_all i +:+ String JSON.dquote "}}"). split.
  - unfold wire, swipe_right_prefix, JSON.quote.
    repeat (rewrite append_assoc || rewrite append_cons || rewrite append_nil_l).
    done.
  - apply unquote_escape_all.
Qed.

(** X14: resetting the party to [{}], as the OK buttons of both alerts do,
    does not reset the component: the [restaurants] state and the finished
    flag stay, and the view is Loading, or Exhausted when the flag is set. *)
Theorem party_reset_keeps_queue_and_flag m (a : addr) (w : nat) :
  restaurants (state (step (NewProps (mkProps (Some (Obj a Party.empty)) w)) m).1)
    = restaurants (state m)
  ∧ finished (state (step (NewProps (mkProps (Some (Obj a Party.empty)) w)) m).1)
    = finished (state m)
  ∧ current_view (step (NewProps (mkProps (Some (Obj a Party.empty)) w)) m).1
    = if finished (state m) then Exhausted else Loading.
Proof.
  destruct (step_push_frame (mkProps (Some (Obj a Party.empty)) w) m) as (Hp & Hf & _).
  split_and!; [|done|].
  - by destruct (step_push_queue (mkProps (Some (Obj a Party.empty)) w) m)
      as [H|(q & c & n & _ & ? & _)].
  - unfold current_view, view. rewrite Hp, Hf. cbn. by destruct (finished (state m)).
Qed.

Lemma request_more_when_queue_becomes_three_witness :
  request_more_count (step (NewProps one_more) short_queue).2 = 1.
Proof.
  exact (request_more_exactly_when_queue_becomes_three (NewProps one_more) short_queue
           (reach_step _ _ (reach_enter C4_entry)) eq_refl).
Defined.

Lemma finished_deck_stays_exhausted_witness :
  finished (state (run finished_screen [NewProps one_more; SetDetails (Some (r "1"))]).1) = true
  ∧ (current_view (run finished_screen [NewProps one_more; SetDetails (Some (r "1"))]).1
       = Exhausted
     ∨ current_view (run finished_screen [NewProps one_more; SetDetails (Some (r "1"))]).1
       = Waiting (party_id (props (run finished_screen
                                       [NewProps one_more; SetDetails (Some (r "1"))]).1))).
Proof.
  apply (finished_deck_stays_exhausted finished_screen
           [NewProps one_more; SetDetails (Some (r "1"))]); [reflexivity|].
  by repeat constructor.
Defined.

Lemma queue_changes_only_witness :
  restaurants (state (run C4_three [SwipedRight "2"; SetDetails (Some (r "2")); HardwareBack;
                                    PressExitCancel; SetFinished true; PressErrorOK]).1)
  = restaurants (state C4_three).
Proof.
  apply (queue_changes_only_by_setRestaurants_StartOver_or_push C4_three).
  - exact (reach_step C4_swipe _ (reach_step C4_seed _ (reach_enter C4_entry))).
  - by repeat constructor.
Defined.

Lemma second_start_over_witness :
  props (step PressStartOver (step PressStartOver C7_screen).1).1
    = props (step PressStartOver C7_screen).1
  ∧ restaurants (state (step PressStartOver (step PressStartOver C7_screen).1).1)
    = restaurants (state (step PressStartOver C7_screen).1)
  ∧ finished (state (step PressStartOver (step PressStartOver C7_screen).1).1)
    = finished (state (step PressStartOver C7_screen).1)
  ∧ details (state (step PressStartOver (step PressStartOver C7_screen).1).1)
    = details (state (step PressStartOver C7_screen).1)
  ∧ Forall (λ a, is_send a = false) (step PressStartOver (step PressStartOver C7_screen).1).2.
Proof. exact (second_start_over_changes_and_sends_nothing C7_screen (reach_enter C7_entry)). Defined.

Lemma error_alert_twice_witness :
  error_alert_count (step (NewProps error_with_batch) C4_three).2 = 2.
Proof.
  exact (error_alert_raised_once_per_render_pass error_with_batch C4_three eq_refl
           ltac:(done)).
Defined.

Lemma placeholder_shows_the_top_card_witness :
  placeholder true four (state C4_three) = Some (Some (Restaurant.image_url (r "2"))).
Proof. exact (placeholder_shows_the_top_card four (state C4_three) (r "2") eq_refl). Defined.

Example empty_list_throws_on_ios :
  returned true empty_list (state (enter empty_list).1) = None
  ∧ returned false empty_list (state (enter empty_list).1)
    = Some (Active (Obj (Outside 301) []) None, None).
Proof. split; reflexivity. Qed.

End more_facts.

(** ** The low-queue effect and the identity of the queue *)

Section queue_identity.
Import PartyScreen Examples MoreExamples.
Implicit Types (p : Props) (s : State) (m : Mounted) (e : Event).






End queue_identity.
